(** * nitsmdevtools.scope: pin resolution and the session-scope operation layer

    A shallow embedding of [src/nitsmdevtools/scope.py].  Python lists and
    tuples are Rocq lists, [str] is [string] (the text handled here, channel
    and pin names, is ASCII), [int] is [Z].  A Python exception is a value
    of [exn] carried by the [result] monad.  Calls into the niscope driver
    are events appended to a call log by the [Driver] monad. *)

From Stdlib Require Import ZArith String Ascii DecimalString QArith.
From stdpp Require Import base list strings.
From Equations Require Import Equations.
From Equations.Prop Require Import Logic.

Open Scope string_scope.
Open Scope Z_scope.
Open Scope list_scope.

(** ** Python exceptions and the result monad *)

Inductive exn : Type :=
| IndexError
| ZeroDivisionError
| ValueError (msg : string)
| DriverError (code : Z).

Inductive result (A : Type) : Type :=
| Ok (a : A)
| Raise (e : exn).
Arguments Ok {A} a.
Arguments Raise {A} e.

#[global] Instance result_ret : MRet result := fun A a => Ok a.
#[global] Instance result_bind : MBind result := fun A B f m =>
  match m with
  | Ok a => f a
  | Raise e => Raise e
  end.

(** [for x in l: s = f(s, x)], stopping at the first exception. *)
Fixpoint foldlM {S A : Type} (f : S -> A -> result S) (l : list A) (s : S)
  : result S :=
  match l with
  | [] => Ok s
  | x :: l' => s' ← f s x; foldlM f l' s'
  end.

(** ** Python sequence indexing *)

(** The position that index [i] designates in a sequence of [len] items:
    a negative index counts from the end, anything else out of range is an
    [IndexError] ([None] here). *)
Definition py_index (len : nat) (i : Z) : option nat :=
  if bool_decide (0 <= i < Z.of_nat len) then Some (Z.to_nat i)
  else if bool_decide (- Z.of_nat len <= i < 0) then Some (Z.to_nat (Z.of_nat len + i))
  else None.

(** [l[i]] *)
Definition py_getitem {A : Type} (l : list A) (i : Z) : result A :=
  match py_index (length l) i ≫= (fun k => l !! k) with
  | Some x => Ok x
  | None => Raise IndexError
  end.

(** [l[i] = x] *)
Definition py_setitem {A : Type} (l : list A) (i : Z) (x : A) : result (list A) :=
  match py_index (length l) i with
  | Some k => Ok (<[k:=x]> l)
  | None => Raise IndexError
  end.

(** [a % b] on Python integers: the sign follows the divisor, as [Z.modulo]. *)
Definition py_mod (a b : Z) : result Z :=
  if bool_decide (b = 0) then Raise ZeroDivisionError else Ok (a mod b).

(** [l.index(x)]: the first position holding a value equal to [x];
    [None] stands for the [ValueError] raised when there is none. *)
Fixpoint list_index {A : Type} (eqb : A -> A -> bool) (x : A) (l : list A)
  : option nat :=
  match l with
  | [] => None
  | y :: l' => if eqb y x then Some 0%nat else S <$> list_index eqb x l'
  end.

(** [str(n)] / ["{}".format(n)] for an integer. *)
Definition str (n : Z) : string := NilZero.string_of_int (Z.to_int n).

(** [sep.join(l)] *)
Definition join (sep : string) (l : list string) : string := String.concat sep l.

(** ** Regular-expression split on [\s*,\s*] *)

(** [\s] on ASCII text: TAB, LF, VT, FF, CR, the separators FS, GS, RS, US
    and the space. *)
Definition is_space (c : ascii) : bool :=
  let n := nat_of_ascii c in
  ((9 <=? n) && (n <=? 13) || (28 <=? n) && (n <=? 32))%nat.

Definition is_comma (c : ascii) : bool := Ascii.eqb c ",".

(** The greedy [\s*]: what is left once the leading white space is consumed. *)
Fixpoint skip_spaces (s : string) : string :=
  match s with
  | String c s' => if is_space c then skip_spaces s' else s
  | EmptyString => EmptyString
  end.

(** An attempt to match [\s*,\s*] at the start of [s]; the rest of the text
    after the match.  Backtracking into the first [\s*] cannot help, a comma
    is no white space. *)
Definition match_separator (s : string) : option string :=
  match skip_spaces s with
  | String c s' => if is_comma c then Some (skip_spaces s') else None
  | EmptyString => None
  end.

Lemma skip_spaces_length (s : string) :
  (String.length (skip_spaces s) <= String.length s)%nat.
Proof.
  induction s as [|c s IH]; simpl; [lia|].
  destruct (is_space c); simpl; lia.
Qed.

Lemma match_separator_length (s rest : string) :
  match_separator s = Some rest -> (String.length rest < String.length s)%nat.
Proof.
  unfold match_separator. intros H.
  pose proof (skip_spaces_length s) as Hs.
  destruct (skip_spaces s) as [|c s'] eqn:E; [discriminate|].
  destruct (is_comma c); [|discriminate].
  injection H as <-. pose proof (skip_spaces_length s') as Hs'.
  simpl in Hs. lia.
Qed.

(** The scan of [re.split]: [piece] holds, reversed, the characters of the
    piece being read.  At each position the leftmost match is tried first;
    a match closes the piece and the scan resumes after it, otherwise the
    character joins the piece. *)
Equations? re_split_scan (s : string) (piece : string) : list string
  by wf (String.length s) lt :=
  re_split_scan s piece with inspect (match_separator s) := {
    | exist _ (Some rest) _ => String.rev piece :: re_split_scan rest EmptyString
    | exist _ None _ with s := {
        | EmptyString => [String.rev piece]
        | String c s' => re_split_scan s' (String c piece) } }.
Proof. by apply match_separator_length. Qed.

(** [re.split(r"\s*,\s*", s)] *)
Definition re_split_commas (s : string) : list string := re_split_scan s EmptyString.

(** ** Collaborators: the driver session and the test-management context *)

Module niscope.

(** A driver session object.  Two sessions are the same Python object when
    their [handle]s agree; [io_resource_descriptor] is the attribute of
    that name. *)
Record Session : Type := {
  handle : nat;
  io_resource_descriptor : string
}.

Definition Session_is (a b : Session) : bool := Nat.eqb (handle a) (handle b).

Inductive TriggerSlope : Type := NEGATIVE | POSITIVE.
Inductive ClearableMeasurement : Type := ALL_MEASUREMENTS.

(** [niscope.ScalarMeasurement], by the value of the enumeration member. *)
Definition ScalarMeasurement : Type := Z.

(** The calls this module issues on a session or on a channel view of it
    ([session.channels[...]]). *)
Inductive call : Type :=
| abort
| initiate
| commit
| configure_trigger_immediate
| set_exported_start_trigger_output_terminal (terminal : string)
| configure_trigger_digital (trigger_source : string) (slope : TriggerSlope)
    (holdoff delay : Q)
| clear_waveform_measurement_stats (channels : string)
    (clearable_measurement_function : ClearableMeasurement)
| fetch_measurement_stats (channels : string)
    (scalar_meas_function : ScalarMeasurement).

End niscope.

Module nitsm.

Record PinQueryContext : Type := {
  _pins : list string;
  (** number of pins per channel group, then the channel-group index and
      the channel index of every pin (outer list) at every site (inner) *)
  get_channel_group_and_channel_index :
    list string -> list Z * list (list Z) * list (list Z)
}.

Record SemiconductorModuleContext : Type := {
  site_numbers : list Z;
  (** [get_pin_names("", "")]: the DUT pins and the system pins *)
  get_pin_names : list string * list string;
  get_pins_in_pin_group : list string -> result (list string);
  (** the pin query context, the sessions and their channel descriptors *)
  pins_to_niscope_sessions :
    list string -> PinQueryContext * list niscope.Session * list string
}.

End nitsm.

(** ** Data model *)

Record SSCScope : Type := {
  session : niscope.Session;
  channels : string;
  channel_list : string
}.

Record TSMScope : Type := {
  pin_query_context : nitsm.PinQueryContext;
  site_numbers : list Z;
  ssc : list SSCScope
}.

Inductive PinType : Type := DUT_Pin | System_Pin | Pin_Group | Not_Determined.

(** [pin_type.value] *)
Definition PinType_value (t : PinType) : Z :=
  match t with
  | DUT_Pin => 0
  | System_Pin => 1
  | Pin_Group => 2
  | Not_Determined => 3
  end.

Record ExpandedPinInformation : Type := {
  Pin : string;
  Type_ : PinType;
  Index : Z
}.

Record PinsCluster : Type := { Pins : list string }.

(** Equality of two [SSCScope] tuples: field by field, the session by
    identity. *)
Definition SSCScope_eqb (a b : SSCScope) : bool :=
  niscope.Session_is (session a) (session b)
  && String.eqb (channels a) (channels b)
  && String.eqb (channel_list a) (channel_list b).

(** ** Array broadcasting *)

(** The argument of [_expand_to_requested_array_size]: a tuple, or anything
    else, which is taken as one value. *)
Inductive py_arg (A : Type) : Type :=
| Scalar (x : A)
| Tuple (xs : list A).
Arguments Scalar {A} x.
Arguments Tuple {A} xs.

(** The [for _ in range(requested_size)] loop of the tuple branch, [n]
    iterations left. *)
Fixpoint expand_loop {A : Type} (data : list A) (n : nat) (i : Z)
  (data_out : list A) : result (list A) :=
  match n with
  | O => Ok data_out
  | S n' =>
      x ← py_getitem data i;
      let data_out := data_out ++ [x] in
      if bool_decide (i = Z.of_nat (length data))
      then expand_loop data n' 0 data_out
      else expand_loop data n' (i + 1) data_out
  end.

Definition _expand_to_requested_array_size {A : Type} (data_in : py_arg A)
  (requested_size : Z) : result (list A) :=
  '(data, data_out) ←
    match data_in with
    | Tuple data =>
        data_out ← expand_loop data (Z.to_nat requested_size) 0 [];
        mret (data, data_out)
    | Scalar x => mret ([x], repeat x (Z.to_nat requested_size))
    end;
  let len := Z.of_nat (length data) in
  (* [len(data) == 0 ^ requested_size == 0] is the comparison chain
     [len(data) == (0 ^ requested_size) == 0]: [^] binds tighter than [==] *)
  invalid ←
    (if bool_decide (len = Z.lxor 0 requested_size)
        && bool_decide (Z.lxor 0 requested_size = 0)
     then mret true
     else r ← py_mod requested_size len; mret (negb (bool_decide (r = 0))));
  if invalid : bool then
    if bool_decide (len = 0) || bool_decide (requested_size = 0)
    then Raise (ValueError "Empty array input")
    else Raise (ValueError "Input array does not evenly distribute into sessions")
  else mret data_out.

(** ** Pin classification *)

Definition _get_all_pin_names (tsm_context : nitsm.SemiconductorModuleContext)
  (reload_cache : bool) : list string * list PinType :=
  let pin_names : list string := [] in
  let pin_types : list PinType := [] in
  if bool_decide (length pin_names = 0%nat) || reload_cache then
    let '(dut_pins, system_pins) := nitsm.get_pin_names tsm_context in
    let dut_pins_type := repeat DUT_Pin (length dut_pins) in
    let system_pins_type := repeat System_Pin (length system_pins) in
    (dut_pins ++ system_pins, dut_pins_type ++ system_pins_type)
  else (pin_names, pin_types).

(** One iteration of the loop of [_identify_pin_types]; the state is
    [(filtered_pin_types, pin_group_found)]. *)
Definition identify_step (pin_names : list string) (pin_types : list PinType)
  (st : list PinType * bool) (pin : string) : result (list PinType * bool) :=
  let '(filtered_pin_types, _) := st in
  match list_index String.eqb pin pin_names with
  | Some index =>
      t ← py_getitem pin_types (Z.of_nat index);
      mret (filtered_pin_types ++ [t], false)
  | None => mret (filtered_pin_types ++ [Pin_Group], true)
  end.

Definition _identify_pin_types (tsm_context : nitsm.SemiconductorModuleContext)
  (pins_or_pins_group : list string) : result (list PinType * bool) :=
  let '(pin_names, pin_types) := _get_all_pin_names tsm_context false in
  foldlM (identify_step pin_names pin_types) pins_or_pins_group ([], false).

Definition _check_for_pin_group (tsm_context : nitsm.SemiconductorModuleContext)
  (pins_or_pins_group : list string) : result (list PinType * list string) :=
  '(pins_types, pin_group_found) ← _identify_pin_types tsm_context pins_or_pins_group;
  if pin_group_found : bool then
    pins ← nitsm.get_pins_in_pin_group tsm_context pins_or_pins_group;
    '(pins_types, _) ← _identify_pin_types tsm_context pins;
    mret (pins_types, pins)
  else mret (pins_types, pins_or_pins_group).

(** ** Channel-list resolver *)

(** [numpy.transpose] of a list of rows, as the list of its rows.  Rows of
    unequal length make no array (numpy refuses the ragged shape). *)
Definition np_transpose (m : list (list Z)) : result (list (list Z)) :=
  match m with
  | [] => Ok []
  | row :: _ =>
      if forallb (fun r => Nat.eqb (length r) (length row)) m
      then Ok ((fun i => (fun r => nth i r 0) <$> m) <$> seq 0 (length row))
      else Raise (ValueError "inhomogeneous shape")
  end.

(** The string written for a pin at a site: the pin itself when
    [pin_type.value == 1], else ["Site{}/{}".format(site_number, pin)]. *)
Definition channel_address (pin_type : PinType) (site_number : Z) (pin : string)
  : string :=
  if bool_decide (PinType_value pin_type = 1) then pin
  else "Site" +:+ str site_number +:+ "/" +:+ pin.

(** [pins_array_for_session_input[g].Pins[c] = value].  Every cluster owns a
    list of its own, so the in-place update of that list is the replacement
    of the cluster in the array. *)
Definition store_pin (pins_array : list PinsCluster) (g c : Z) (value : string)
  : result (list PinsCluster) :=
  cluster ← py_getitem pins_array g;
  pins ← py_setitem (Pins cluster) c value;
  py_setitem pins_array g {| Pins := pins |}.

(** Body of the inner loop, one pin of one site. *)
Definition pin_step (site_number : Z) (pins_array : list PinsCluster)
  (item : Z * Z * string * PinType) : result (list PinsCluster) :=
  let '(per_pin_channel_group_index, per_pin_channel_index, pin, pin_type) := item in
  store_pin pins_array per_pin_channel_group_index per_pin_channel_index
    (channel_address pin_type site_number pin).

(** Body of the outer loop, one site: the inner [for ... in zip(...)]. *)
Definition site_step (pin_names : list string) (pin_types : list PinType)
  (pins_array : list PinsCluster) (row : list Z * list Z * Z)
  : result (list PinsCluster) :=
  let '(per_site_channel_group_indices, per_site_channel_indices, site_number) := row in
  foldlM (pin_step site_number)
    (zip (zip (zip per_site_channel_group_indices per_site_channel_indices)
            pin_names) pin_types)
    pins_array.

(** The two nested loops of [_pin_query_context_to_channel_list]. *)
Definition fill_pins_array (pins_array : list PinsCluster)
  (channel_group_indices channel_indices : list (list Z))
  (site_numbers_out : list Z) (pin_names : list string) (pin_types : list PinType)
  : result (list PinsCluster) :=
  group_rows ← np_transpose channel_group_indices;
  index_rows ← np_transpose channel_indices;
  foldlM (site_step pin_names pin_types)
    (zip (zip group_rows index_rows) site_numbers_out) pins_array.

Definition _pin_query_context_to_channel_list
  (expanded_pins_information : list ExpandedPinInformation)
  (site_numbers : list Z) (pin_query_context : nitsm.PinQueryContext)
  (tsm_context : nitsm.SemiconductorModuleContext)
  : result (list Z * list string) :=
  let pins := nitsm._pins pin_query_context in
  let '(number_of_pins_per_channel, channel_group_indices, channel_indices) :=
    nitsm.get_channel_group_and_channel_index pin_query_context pins in
  let pins_array_for_session_input :=
    (fun number_of_pins => {| Pins := repeat "" (Z.to_nat number_of_pins) |})
      <$> number_of_pins_per_channel in
  let site_numbers_out :=
    if bool_decide (length site_numbers = 0%nat)
    then nitsm.site_numbers tsm_context else site_numbers in
  '(pin_types_return, pin_names_return) ←
    (if bool_decide (length expanded_pins_information = 0%nat)
     then _check_for_pin_group tsm_context pins
     else mret (Type_ <$> expanded_pins_information, Pin <$> expanded_pins_information));
  filled ← fill_pins_array pins_array_for_session_input channel_group_indices
    channel_indices site_numbers_out pin_names_return pin_types_return;
  mret (site_numbers_out, map (fun cluster => join "," (Pins cluster)) filled).

Definition tsm_ssc_scope_pins_to_sessions
  (tsm_context : nitsm.SemiconductorModuleContext) (pins : list string)
  (site_numbers : list Z) : result TSMScope :=
  let '(pin_query_context, sessions, channels) :=
    nitsm.pins_to_niscope_sessions tsm_context pins in
  '(site_numbers_out, channel_list_per_session) ←
    _pin_query_context_to_channel_list [] site_numbers pin_query_context tsm_context;
  mret {| pin_query_context := pin_query_context;
          site_numbers := site_numbers_out;
          ssc := (fun '(session, channel, channel_list) =>
                    {| session := session; channels := channel;
                       channel_list := channel_list |})
                 <$> zip (zip sessions channels) channel_list_per_session |}.

(** ** Per-channel expansion *)

Definition _expand_ssc_to_ssc_per_channel (ssc : list SSCScope) : list SSCScope :=
  scope_ssc ← ssc;
  '(channel, pin) ← zip (re_split_commas (channels scope_ssc))
                        (re_split_commas (channel_list scope_ssc));
  [ {| session := session scope_ssc; channels := channel; channel_list := pin |} ].

(** ** The driver and its call log *)

(** A call issued on a session. *)
Definition event : Type := niscope.Session * niscope.call.

(** The niscope driver as this module sees it: whether a call raises, given
    the calls issued before it, and what a statistics fetch returns. *)
Class NiScope : Type := {
  MeasurementStats : Type;
  raises : list event -> event -> option exn;
  fetched : list event -> event -> list MeasurementStats
}.

(** A computation that talks to the driver: from the log of the calls issued
    so far to its outcome and the extended log.  A call that raises is in
    the log, it was issued. *)
Definition Driver (A : Type) : Type := list event -> result A * list event.

#[global] Instance Driver_ret : MRet Driver := fun A a log => (Ok a, log).
#[global] Instance Driver_bind : MBind Driver := fun A B f m log =>
  match m log with
  | (Ok a, log') => f a log'
  | (Raise e, log') => (Raise e, log')
  end.

(** An exception of this module's own, raised between driver calls. *)
Definition lift {A : Type} (r : result A) : Driver A := fun log => (r, log).

Section Operations.

Context `{NiScope}.

(** [session.m(...)] for a call without result. *)
Definition invoke (s : niscope.Session) (c : niscope.call) : Driver unit :=
  fun log =>
    (match raises log (s, c) with
     | None => Ok tt
     | Some e => Raise e
     end, log ++ [(s, c)]).

(** [session.channels[...].fetch_measurement_stats(...)] *)
Definition invoke_fetch (s : niscope.Session) (c : niscope.call)
  : Driver (list MeasurementStats) :=
  fun log =>
    (match raises log (s, c) with
     | None => Ok (fetched log (s, c))
     | Some e => Raise e
     end, log ++ [(s, c)]).

(** [session.m] without the call parentheses: the expression evaluates to
    the bound method and is dropped, the driver sees nothing. *)
Definition bound_method (s : niscope.Session) (c : niscope.call) : Driver unit :=
  mret tt.

(** [for x in l: st = body(st, x)] *)
Fixpoint for_fold {S A : Type} (body : S -> A -> Driver S) (l : list A) (st : S)
  : Driver S :=
  match l with
  | [] => mret st
  | x :: l' => st' ← body st x; for_fold body l' st'
  end.

(** [for x in l: body(x)] *)
Definition for_each {A : Type} (l : list A) (body : A -> Driver unit)
  : Driver unit :=
  for_fold (fun _ x => body x) l tt.

Definition initiate (tsm : TSMScope) : Driver TSMScope :=
  for_each (ssc tsm) (fun scope_ssc =>
    invoke (session scope_ssc) niscope.initiate);;
  mret tsm.

Definition abort (tsm : TSMScope) : Driver TSMScope :=
  for_each (ssc tsm) (fun scope_ssc =>
    bound_method (session scope_ssc) niscope.abort);;
  mret tsm.

Definition commit (tsm : TSMScope) : Driver TSMScope :=
  for_each (ssc tsm) (fun scope_ssc =>
    bound_method (session scope_ssc) niscope.commit);;
  mret tsm.

(** [OUTPUT_TERMINAL.NONE] *)
Definition OUTPUT_TERMINAL_NONE : string := "VAL_NO_SOURCE".

Definition tsm_ssc_scope_clear_triggers (tsm : TSMScope) : Driver TSMScope :=
  for_each (ssc tsm) (fun scope_ssc =>
    invoke (session scope_ssc) niscope.abort;;
    invoke (session scope_ssc) niscope.configure_trigger_immediate;;
    invoke (session scope_ssc)
      (niscope.set_exported_start_trigger_output_terminal OUTPUT_TERMINAL_NONE);;
    invoke (session scope_ssc) niscope.commit);;
  mret tsm.

(** Body of the loop of [tsm_ssc_scope_export_start_triggers]; the state
    is [start_trigger]. *)
Definition export_step (entries : list SSCScope) (output_terminal : string)
  (start_trigger : string) (scope_ssc : SSCScope) : Driver string :=
  match list_index SSCScope_eqb scope_ssc entries with
  | None => lift (Raise (ValueError "x not in list"))
  | Some index =>
      if bool_decide (index = 0%nat) then
        invoke (session scope_ssc) niscope.configure_trigger_immediate;;
        invoke (session scope_ssc)
          (niscope.set_exported_start_trigger_output_terminal output_terminal);;
        invoke (session scope_ssc) niscope.commit;;
        mret ("/" +:+ niscope.io_resource_descriptor (session scope_ssc)
              +:+ "/" +:+ output_terminal)
      else
        invoke (session scope_ssc)
          (niscope.configure_trigger_digital start_trigger niscope.POSITIVE 0 0);;
        invoke (session scope_ssc) niscope.initiate;;
        mret start_trigger
  end.

Definition tsm_ssc_scope_export_start_triggers (tsm : TSMScope)
  (output_terminal : string) : Driver (TSMScope * string) :=
  let start_trigger := "" in
  start_trigger ←
    (if negb (bool_decide (ssc tsm = []))
     then for_fold (export_step (ssc tsm) output_terminal) (ssc tsm) start_trigger
     else mret start_trigger);
  mret (tsm, start_trigger).

Definition tsm_ssc_scope_start_acquisition (tsm : TSMScope) : Driver TSMScope :=
  for_each (reverse (ssc tsm)) (fun scope_ssc =>
    invoke (session scope_ssc) niscope.abort;;
    invoke (session scope_ssc) niscope.initiate);;
  mret tsm.

(** Body of the loop of [scope_measure_statistics]; the state is
    [measurement_stats]. *)
Definition measure_step (scalar_meas_function : niscope.ScalarMeasurement)
  (measurement_stats : list (list MeasurementStats)) (scope_ssc : SSCScope)
  : Driver (list (list MeasurementStats)) :=
  invoke (session scope_ssc)
    (niscope.clear_waveform_measurement_stats (channels scope_ssc)
       niscope.ALL_MEASUREMENTS);;
  invoke (session scope_ssc) niscope.initiate;;
  stats ← invoke_fetch (session scope_ssc)
    (niscope.fetch_measurement_stats (channels scope_ssc) scalar_meas_function);
  mret (measurement_stats ++ [stats]).

Definition scope_measure_statistics (tsm : TSMScope)
  (scalar_meas_function : niscope.ScalarMeasurement)
  : Driver (TSMScope * list (list MeasurementStats)) :=
  measurement_stats ← for_fold (measure_step scalar_meas_function) (ssc tsm) [];
  mret (tsm, measurement_stats).

End Operations.

(** ** Session lifecycle *)

(** Modelled from the spec: the lifecycle of one driver session (the driver
    is an external library), [Unopened -> Configured -> Armed -> Acquired ->
    Fetched], where [abort()] takes [Armed] and [Acquired] back to
    [Configured] and [initiate()] arms. *)
Inductive lifecycle : Type := Unopened | Configured | Armed | Acquired | Fetched.

Definition lifecycle_step (st : lifecycle) (c : niscope.call) : lifecycle :=
  match c with
  | niscope.abort =>
      match st with
      | Armed | Acquired => Configured
      | _ => st
      end
  | niscope.initiate => Armed
  | niscope.fetch_measurement_stats _ _ => Fetched
  | niscope.clear_waveform_measurement_stats _ _ => st
  | _ => Configured
  end.

(** The state of session [s] after the calls of [log], from state [st]. *)
Definition lifecycle_after (s : niscope.Session) (log : list event) (st : lifecycle)
  : lifecycle :=
  fold_left (fun st '(s', c) =>
               if niscope.Session_is s' s then lifecycle_step st c else st)
    log st.

(** ** Vocabulary of the statements *)

(** A driver that never raises and returns no statistics. *)
Definition quiet_driver : NiScope :=
  {| MeasurementStats := Z;
     raises := fun _ _ => None;
     fetched := fun _ _ => [] |}.

(** A driver whose [initiate] fails with error [code]. *)
Definition failing_initiate_driver (code : Z) : NiScope :=
  {| MeasurementStats := Z;
     raises := fun _ '(_, c) =>
       match c with
       | niscope.initiate => Some (DriverError code)
       | _ => None
       end;
     fetched := fun _ _ => [] |}.

Section Traces.

Context `{NiScope}.

Definition never_raises : Prop := forall log ev, raises log ev = None.

(** [issues m cs post]: from any log, [m] issues a prefix of the calls
    [cs] and nothing else; when it returns, it has issued all of [cs] and
    its value satisfies [post]; and it does return when the driver never
    raises. *)
Definition issues {A : Type} (m : Driver A) (cs : list event) (post : A -> Prop)
  : Prop :=
  forall log, exists cs',
    (m log).2 = log ++ cs'
    /\ cs' `prefix_of` cs
    /\ (forall a, (m log).1 = Ok a -> cs' = cs /\ post a)
    /\ (never_raises -> exists a, (m log).1 = Ok a).

End Traces.

(** The calls that the acquisition-start claim expects: abort then initiate
    on every entry, last entry first. *)
Definition expected_acquisition_calls (entries : list SSCScope) : list event :=
  scope_ssc ← reverse entries;
  [(session scope_ssc, niscope.abort); (session scope_ssc, niscope.initiate)].

(** The calls that the statistics claim expects: clear, initiate, fetch on
    every entry in turn. *)
Definition expected_statistics_calls (f : niscope.ScalarMeasurement)
  (entries : list SSCScope) : list event :=
  scope_ssc ← entries;
  [(session scope_ssc,
     niscope.clear_waveform_measurement_stats (channels scope_ssc)
       niscope.ALL_MEASUREMENTS);
   (session scope_ssc, niscope.initiate);
   (session scope_ssc,
     niscope.fetch_measurement_stats (channels scope_ssc) f)].

(** The calls that the trigger-export claim expects on the master entry. *)
Definition expected_master_calls (output_terminal : string) (master : SSCScope)
  : list event :=
  [(session master, niscope.configure_trigger_immediate);
   (session master, niscope.set_exported_start_trigger_output_terminal output_terminal);
   (session master, niscope.commit)].

(** ... and on the entries after it, for the trigger path [path]. *)
Definition expected_slave_calls (path : string) (slaves : list SSCScope)
  : list event :=
  scope_ssc ← slaves;
  [(session scope_ssc, niscope.configure_trigger_digital path niscope.POSITIVE 0 0);
   (session scope_ssc, niscope.initiate)].

(** ["/" + io_resource_descriptor + "/" + output_terminal] *)
Definition trigger_path (master : SSCScope) (output_terminal : string) : string :=
  "/" +:+ niscope.io_resource_descriptor (session master) +:+ "/" +:+ output_terminal.

(** No comma of [s] has white space right before or right after it, so
    every match of the separator pattern in [s] is the bare comma. *)
Fixpoint comma_tight (s : string) : bool :=
  match s with
  | String a s' =>
      match s' with
      | String b _ =>
          negb (is_space a && is_comma b) && negb (is_comma a && is_space b)
          && comma_tight s'
      | EmptyString => true
      end
  | EmptyString => true
  end.

(** *** Vocabulary of the resolver statements *)

(** The array the resolver starts from: one cluster of empty strings for
    every session, as wide as the session. *)
Definition initial_pins_array (number_of_pins_per_channel : list Z) : list PinsCluster :=
  (fun number_of_pins => {| Pins := repeat "" (Z.to_nat number_of_pins) |})
    <$> number_of_pins_per_channel.

(** One (site, pin) pair of the two nested loops, with the indices the
    collaborator gave for it. *)
Record site_pin : Type := {
  sp_site : Z;
  sp_group : Z;
  sp_index : Z;
  sp_pin : string;
  sp_type : PinType
}.

(** The (site, pin) pairs in the order the loops process them: site by
    site, and pin by pin within a site, both cut to the shortest operand of
    their [zip]. *)
Definition site_pin_pairs (group_rows index_rows : list (list Z))
  (site_numbers_out : list Z) (pin_names : list string) (pin_types : list PinType)
  : list site_pin :=
  '(gs, cs, site_number) ← zip (zip group_rows index_rows) site_numbers_out;
  '(g, c, pin, pin_type) ← zip (zip (zip gs cs) pin_names) pin_types;
  [ {| sp_site := site_number; sp_group := g; sp_index := c;
       sp_pin := pin; sp_type := pin_type |} ].

(** The address written for a pair. *)
Definition address_of (p : site_pin) : string :=
  channel_address (sp_type p) (sp_site p) (sp_pin p).

(** The session slot position, cluster and place in the cluster, that the
    indices [g] and [c] designate in [pins_array]; [None] when one of them
    is out of range. *)
Definition designated (pins_array : list PinsCluster) (g c : Z) : option (nat * nat) :=
  k ← py_index (length pins_array) g;
  cluster ← pins_array !! k;
  i ← py_index (length (Pins cluster)) c;
  Some (k, i).

Definition designated_by (pins_array : list PinsCluster) (p : site_pin)
  : option (nat * nat) :=
  designated pins_array (sp_group p) (sp_index p).

(** What a session slot position holds. *)
Definition slot (pins_array : list PinsCluster) (pos : nat * nat) : option string :=
  cluster ← pins_array !! pos.1; Pins cluster !! pos.2.

(** The widths of the clusters. *)
Definition widths (pins_array : list PinsCluster) : list nat :=
  (fun cluster => length (Pins cluster)) <$> pins_array.

(** The store of one pair. *)
Definition pair_step (pins_array : list PinsCluster) (p : site_pin)
  : result (list PinsCluster) :=
  store_pin pins_array (sp_group p) (sp_index p) (address_of p).

(** *** Scenarios *)

(** The roster of the classification scenario, with any site list, any
    pin-group provider and any session table. *)
Definition scenario_context (sites : list Z)
  (provider : list string -> result (list string))
  (sessions : list string -> nitsm.PinQueryContext * list niscope.Session * list string)
  : nitsm.SemiconductorModuleContext :=
  {| nitsm.site_numbers := sites;
     nitsm.get_pin_names := (["A"; "B"], ["Clk"]);
     nitsm.get_pins_in_pin_group := provider;
     nitsm.pins_to_niscope_sessions := sessions |}.

(** The sessions and the aggregate of the three-entry scenarios. *)
Definition scenario_session (k : nat) : niscope.Session :=
  {| niscope.handle := k;
     niscope.io_resource_descriptor := "Dev" +:+ str (Z.of_nat k) |}.

Definition scenario_entry (k : nat) : SSCScope :=
  {| session := scenario_session k; channels := "0"; channel_list := "Site0/A" |}.

Definition scenario_pin_query_context : nitsm.PinQueryContext :=
  {| nitsm._pins := ["A"];
     nitsm.get_channel_group_and_channel_index := fun _ => ([], [], []) |}.

Definition scenario_aggregate (entries : list SSCScope) : TSMScope :=
  {| pin_query_context := scenario_pin_query_context;
     site_numbers := [0];
     ssc := entries |}.

(** The per-channel entry made of one channel and one pin of entry [e]. *)
Definition per_channel_entry (e : SSCScope) (pair : string * string) : SSCScope :=
  {| session := session e; channels := pair.1; channel_list := pair.2 |}.

(** ** Further operations of the session layer *)

Section FurtherOperations.

Context `{NiScope}.

Definition ssc_scope_fetch_clear_stats (ssc : list SSCScope)
  : Driver (list SSCScope) :=
  for_each ssc (fun scope_ssc =>
    invoke (session scope_ssc)
      (niscope.clear_waveform_measurement_stats (channels scope_ssc)
         niscope.ALL_MEASUREMENTS));;
  mret ssc.

(** Body of the loop of [_ssc_scope_fetch_measurement_stats_arrays]; the
    state is [stats]. *)
Definition fetch_step (stats : list (list MeasurementStats))
  (item : SSCScope * niscope.ScalarMeasurement)
  : Driver (list (list MeasurementStats)) :=
  let '(scope_ssc, scalar_meas_function) := item in
  stat ← invoke_fetch (session scope_ssc)
    (niscope.fetch_measurement_stats (channels scope_ssc) scalar_meas_function);
  mret (stats ++ [stat]).

Definition _ssc_scope_fetch_measurement_stats_arrays (ssc : list SSCScope)
  (scalar_measurements : list niscope.ScalarMeasurement)
  : Driver (list (list MeasurementStats)) :=
  for_fold fetch_step (zip ssc scalar_measurements) [].

Definition tsm_ssc_scope_fetch_meas_stats_per_channel (tsm : TSMScope)
  (scalar_measurement : py_arg niscope.ScalarMeasurement)
  : Driver (TSMScope * list (list MeasurementStats)) :=
  let scope_ssc_per_channel := _expand_ssc_to_ssc_per_channel (ssc tsm) in
  scalar_measurements ←
    lift (_expand_to_requested_array_size scalar_measurement
            (Z.of_nat (length scope_ssc_per_channel)));
  measurement_stats ←
    _ssc_scope_fetch_measurement_stats_arrays scope_ssc_per_channel
      scalar_measurements;
  mret (tsm, measurement_stats).

End FurtherOperations.

From Stdlib Require Import DecimalZ.

(** ** Pattern matches whose result is used unchecked *)

(** [re.match] returns [None] when the pattern does not match, and the
    functions below call [.group] on the result as it is.  The
    [AttributeError] that follows is no member of [exn]; in the two
    functions of this part it is the one exception that can leave, and
    [None] stands for it. *)

(** [for x in l: st = body(st, x)], stopping at the [AttributeError]. *)
Fixpoint for_opt {S A : Type} (body : S -> A -> option S) (l : list A) (st : S)
  : option S :=
  match l with
  | [] => Some st
  | x :: l' => st' ← body st x; for_opt body l' st'
  end.

(** *** Channel lists back to pins and sites *)

(** The separator of [re.split(r"[/\\]", s)]: one slash or one backslash. *)
Definition is_slash (c : ascii) : bool :=
  Ascii.eqb c "/" || Ascii.eqb c (ascii_of_nat 92).

(** The scan of that split; [piece] holds, reversed, the piece being read. *)
Fixpoint re_split_slash_scan (s : string) (piece : string) : list string :=
  match s with
  | EmptyString => [String.rev piece]
  | String c s' =>
      if is_slash c then String.rev piece :: re_split_slash_scan s' EmptyString
      else re_split_slash_scan s' (String c piece)
  end.

(** [re.split(r"[/\\]", s)] *)
Definition re_split_slashes (s : string) : list string :=
  re_split_slash_scan s EmptyString.

(** [\d] on ASCII text. *)
Definition is_digit (c : ascii) : bool :=
  let n := nat_of_ascii c in ((48 <=? n) && (n <=? 57))%nat.

(** The greedy [\d*] at the start of [s]. *)
Fixpoint take_digits (s : string) : string :=
  match s with
  | String c s' => if is_digit c then String c (take_digits s') else EmptyString
  | EmptyString => EmptyString
  end.

(** [re.match(r"Site(\d+)", site)], as the text of group 1; [None] when the
    pattern does not match at the start of [site]. *)
Definition match_site (site : string) : option string :=
  match site with
  | String "S" (String "i" (String "t" (String "e" rest))) =>
      match take_digits rest with
      | EmptyString => None
      | digits => Some digits
      end
  | _ => None
  end.

(** [int(s)] for a text of decimal digits, most significant first. *)
Fixpoint int_digits (s : string) (acc : Z) : Z :=
  match s with
  | String c s' => int_digits s' (10 * acc + (Z.of_nat (nat_of_ascii c) - 48))
  | EmptyString => acc
  end.

Definition int (s : string) : Z := int_digits s 0.

(** Body of the loop of [_channel_list_to_pins], index [i]; the state is
    [(pins, sites)].  The index comes from [range(len(channels))], so the
    read [channels[i]] is in range.  The unpacking of anything but two
    pieces is the [ValueError] that the loop passes over. *)
Definition pins_step (channels : list string) (st : list string * list Z) (i : nat)
  : option (list string * list Z) :=
  let '(pins, sites) := st in
  channel ← channels !! i;
  match re_split_slashes channel with
  | [site; pin] =>
      let pins := <[i := pin]> pins in
      digits ← match_site site;
      Some (pins, <[i := int digits]> sites)
  | _ => Some (pins, sites)
  end.

Definition _channel_list_to_pins (channel_list : string)
  : option (list string * list string * list Z) :=
  let channels := re_split_commas channel_list in
  let sites := repeat (-1) (length channels) in
  let pins := channels in
  '(pins, sites) ← for_opt (pins_step channels) (seq 0 (length channels)) (pins, sites);
  Some (channels, pins, sites).

(** *** Trigger paths *)

(** [re.match(r"_C[1-4]_", descriptor).group()]; [None] when the pattern
    does not match at the start of [descriptor]. *)
Definition match_chassis (descriptor : string) : option string :=
  match descriptor with
  | String "_" (String "C" (String c (String "_" _))) =>
      if ((49 <=? nat_of_ascii c) && (nat_of_ascii c <=? 52))%nat
      then Some (String "_" (String "C" (String c (String "_" EmptyString))))
      else None
  | _ => None
  end.

(** [chassis_string[2]] is the chassis digit: a match of the pattern holds
    four characters. *)
Definition _ssc_scope_obtain_trigger_path (tsm : TSMScope)
  (trigger_source setup_type : string) : option (list string) :=
  let trigger_paths : list string := [] in
  if String.eqb setup_type "STSM1" then
    for_opt (fun trigger_paths scope_ssc =>
      chassis_string ←
        match_chassis (niscope.io_resource_descriptor (session scope_ssc));
      chassis ← String.get 2 chassis_string;
      let timing_card := "SYNC_6674T_C" +:+ String chassis EmptyString +:+ "_S10" in
      let trigger_path := "/" +:+ timing_card +:+ "/" +:+ "PFI0" in
      Some (trigger_paths ++ [trigger_path])) (ssc tsm) trigger_paths
  else
    for_opt (fun trigger_paths scope_ssc => Some (trigger_paths ++ [trigger_source]))
      (ssc tsm) trigger_paths.

(** *** Vocabulary of the further statements *)

#[global] Instance PinType_eq_dec : EqDecision PinType.
Proof. solve_decision. Defined.

(** The kind the roster gives a name: a DUT pin when the DUT pins list it,
    else a system pin when the system pins list it, else a pin group. *)
Definition pin_kind (dut_pins system_pins : list string) (pin : string) : PinType :=
  if bool_decide (pin ∈ dut_pins) then DUT_Pin
  else if bool_decide (pin ∈ system_pins) then System_Pin
  else Pin_Group.

(** The number of commas of a text. *)
Fixpoint count_commas (s : string) : nat :=
  match s with
  | String c s' => ((if is_comma c then 1 else 0) + count_commas s')%nat
  | EmptyString => 0%nat
  end.

(** The call [initiate] issues on an entry. *)
Definition expected_initiate_calls (entries : list SSCScope) : list event :=
  (fun scope_ssc => (session scope_ssc, niscope.initiate)) <$> entries.

(** The calls that clearing the triggers issues: abort, immediate trigger,
    no exported terminal, commit, on every entry in turn. *)
Definition expected_clear_trigger_calls (entries : list SSCScope) : list event :=
  scope_ssc ← entries;
  [(session scope_ssc, niscope.abort);
   (session scope_ssc, niscope.configure_trigger_immediate);
   (session scope_ssc,
     niscope.set_exported_start_trigger_output_terminal OUTPUT_TERMINAL_NONE);
   (session scope_ssc, niscope.commit)].

(** The call that clearing the statistics issues on every entry. *)
Definition expected_clear_stats_calls (entries : list SSCScope) : list event :=
  (fun scope_ssc =>
     (session scope_ssc,
      niscope.clear_waveform_measurement_stats (channels scope_ssc)
        niscope.ALL_MEASUREMENTS)) <$> entries.

(** The fetch issued for a per-channel entry and its measurement function. *)
Definition expected_fetch_call (item : SSCScope * niscope.ScalarMeasurement) : event :=
  (session item.1, niscope.fetch_measurement_stats (channels item.1) item.2).

(** An entry with one channel and one pin. *)
Definition single_channel (e : SSCScope) : Prop :=
  count_commas (channels e) = 0%nat /\ count_commas (channel_list e) = 0%nat.

(** *** A two-site scenario of the resolver *)

(** Pin [A] on channels 0 and 1 of the first session, one channel per site,
    and the system pin [Clk] on channel 0 of the second session. *)
Definition resolver_pin_query_context : nitsm.PinQueryContext :=
  {| nitsm._pins := ["A"; "Clk"];
     nitsm.get_channel_group_and_channel_index := fun _ =>
       ([2; 1], [[0; 0]; [1; 1]], [[0; 1]; [0; 0]]) |}.

Definition resolver_context : nitsm.SemiconductorModuleContext :=
  scenario_context [0; 1] (fun _ => Raise (ValueError "no such group"))
    (fun _ => (resolver_pin_query_context,
               [scenario_session 0; scenario_session 1], ["0,1"; "0"])).

(** *** Vocabulary of the decoding statements *)

(** What one channel of a channel list decodes to, pin and site: a channel
    of two slash-separated pieces is a site prefix and a pin, any other
    channel is the pin, at site [-1]. *)
Definition decode_channel (channel : string) : option (string * Z) :=
  match re_split_slashes channel with
  | [site; pin] => digits ← match_site site; Some (pin, int digits)
  | _ => Some (channel, -1)
  end.

(** Every character of [s] satisfies [P]. *)
Fixpoint string_forall (P : ascii -> bool) (s : string) : bool :=
  match s with
  | String c s' => P c && string_forall P s'
  | EmptyString => true
  end.

(** A character that the comma split leaves alone: no white space, no
    comma. *)
Definition piece_char (c : ascii) : bool := negb (is_space c) && negb (is_comma c).

(** A character of a plain name: moreover no slash and no backslash. *)
Definition name_char (c : ascii) : bool := piece_char c && negb (is_slash c).

(** The site a decoded address reports: [-1] for a system pin. *)
Definition reported_site (p : site_pin) : Z :=
  if bool_decide (sp_type p = System_Pin) then -1 else sp_site p.

(** The trigger path of chassis [c]. *)
Definition chassis_trigger_path (c : ascii) : string :=
  "/SYNC_6674T_C" +:+ String c EmptyString +:+ "_S10/PFI0".


(** * Properties *)

(** ** Array broadcasting *)

Section Broadcast.

Context {A : Type}.
Implicit Types (data : list A) (x : A).

Lemma py_index_in_range (len : nat) (i : nat) :
  (i < len)%nat -> py_index len (Z.of_nat i) = Some i.
Proof.
  intros Hi. unfold py_index.
  rewrite bool_decide_eq_true_2 by lia. by rewrite Nat2Z.id.
Qed.

Lemma py_index_at_length (len : nat) : py_index len (Z.of_nat len) = None.
Proof.
  unfold py_index.
  rewrite bool_decide_eq_false_2 by lia.
  by rewrite bool_decide_eq_false_2 by lia.
Qed.

Lemma py_getitem_in_range data (i : nat) x :
  data !! i = Some x -> py_getitem data (Z.of_nat i) = Ok x.
Proof.
  intros Hx. unfold py_getitem.
  rewrite py_index_in_range by (by eapply lookup_lt_Some).
  simpl. by rewrite Hx.
Qed.

(** While the index stays inside the tuple the loop copies it in order. *)
Lemma expand_loop_inside data (n i : nat) (data_out : list A) :
  (i + n <= length data)%nat ->
  expand_loop data n (Z.of_nat i) data_out
  = Ok (data_out ++ take n (drop i data)).
Proof.
  revert i data_out. induction n as [|n IH]; intros i data_out Hn; simpl.
  - by rewrite app_nil_r.
  - destruct (data !! i) as [x|] eqn:Hx;
      [|apply lookup_ge_None in Hx; lia].
    rewrite (py_getitem_in_range _ _ _ Hx). simpl.
    rewrite bool_decide_eq_false_2 by lia.
    replace (Z.of_nat i + 1) with (Z.of_nat (S i)) by lia.
    rewrite IH by lia.
    rewrite (drop_S _ _ _ Hx). simpl. by rewrite <- app_assoc.
Qed.

(** The index is reset only once it equals the length, one step after the
    read at that index has already failed. *)
Lemma expand_loop_overrun data (n i : nat) (data_out : list A) :
  (i <= length data < i + n)%nat ->
  expand_loop data n (Z.of_nat i) data_out = Raise IndexError.
Proof.
  revert i data_out. induction n as [|n IH]; intros i data_out Hn; [lia|].
  simpl. destruct (decide (i = length data)) as [->|Hne].
  - unfold py_getitem. by rewrite py_index_at_length.
  - destruct (data !! i) as [x|] eqn:Hx;
      [|apply lookup_ge_None in Hx; lia].
    rewrite (py_getitem_in_range _ _ _ Hx). simpl.
    rewrite bool_decide_eq_false_2 by lia.
    replace (Z.of_nat i + 1) with (Z.of_nat (S i)) by lia.
    apply IH. lia.
Qed.

Lemma expand_loop_from_start data (n : nat) :
  (n <= length data)%nat -> expand_loop data n 0 [] = Ok (take n data).
Proof. intros Hn. by apply (expand_loop_inside data n 0 []). Qed.

Lemma expand_loop_from_start_overrun data (n : nat) :
  (length data < n)%nat -> expand_loop data n 0 [] = Raise IndexError.
Proof. intros Hn. apply (expand_loop_overrun data n 0 []). lia. Qed.

(** A scalar is replicated: [N] copies for every [N >= 0]. *)
Lemma expand_scalar x (N : Z) :
  0 <= N ->
  _expand_to_requested_array_size (Scalar x) N = Ok (repeat x (Z.to_nat N)).
Proof.
  intros HN. unfold _expand_to_requested_array_size. simpl.
  rewrite Z.lxor_0_l.
  destruct (decide (N = 0)) as [->|Hne]; [done|].
  rewrite (bool_decide_eq_false_2 (N = 0)) by done.
  rewrite andb_false_r. unfold py_mod. simpl.
  rewrite Z.mod_1_r. done.
Qed.

(** A tuple as long as the target count comes back as it is. *)
Lemma expand_tuple_same_length data :
  data <> [] ->
  _expand_to_requested_array_size (Tuple data) (Z.of_nat (length data)) = Ok data.
Proof.
  intros Hne. unfold _expand_to_requested_array_size.
  rewrite Nat2Z.id, expand_loop_from_start by lia.
  simpl. rewrite firstn_all. rewrite Z.lxor_0_l.
  assert (length data <> 0%nat) by (by destruct data).
  rewrite (bool_decide_eq_false_2 (Z.of_nat (length data) = 0)) by lia.
  rewrite andb_false_r. unfold py_mod.
  rewrite bool_decide_eq_false_2 by lia. simpl.
  rewrite Z_mod_same_full. done.
Qed.

(** A tuple shorter than the target count is never cycled: the read one
    past its end raises. *)
Lemma expand_tuple_shorter_raises data (N : Z) :
  Z.of_nat (length data) < N ->
  _expand_to_requested_array_size (Tuple data) N = Raise IndexError.
Proof.
  intros HN. unfold _expand_to_requested_array_size.
  rewrite expand_loop_from_start_overrun by lia. done.
Qed.

(** A tuple longer than a positive target count is refused as uneven. *)
Lemma expand_tuple_longer_uneven data (N : Z) :
  0 < N < Z.of_nat (length data) ->
  _expand_to_requested_array_size (Tuple data) N
  = Raise (ValueError "Input array does not evenly distribute into sessions").
Proof.
  intros HN. unfold _expand_to_requested_array_size.
  rewrite expand_loop_from_start by lia.
  simpl. rewrite Z.lxor_0_l.
  rewrite andb_comm.
  destruct (bool_decide (N = 0)) eqn:HN0; [apply bool_decide_eq_true_1 in HN0; lia|].
  simpl. unfold py_mod.
  rewrite bool_decide_eq_false_2 by lia. simpl.
  rewrite Z.mod_small by lia. rewrite HN0. simpl.
  case_bool_decide; [lia|done].
Qed.

End Broadcast.

(** C3. The claim: broadcasting a sequence of length [L] to a target count
    [N] that [L] divides returns [[a[i % L] for i in range(N)]].  On the
    code, the tuple [(1, 2)] broadcast to [4] raises [IndexError] where the
    claim gives [[1, 2, 1, 2]]; the scalar and the [L = N] parts of the claim
    do hold ([7] to three copies, [(1, 2)] to itself). *)
Theorem expand_cycle_reads_past_end :
  _expand_to_requested_array_size (Tuple [1; 2]) 4 = Raise IndexError
  /\ (fun i => nth (i mod 2)%nat [1; 2] 0) <$> seq 0 4 = [1; 2; 1; 2]
  /\ _expand_to_requested_array_size (Scalar 7) 3 = Ok [7; 7; 7]
  /\ _expand_to_requested_array_size (Tuple [1; 2]) 2 = Ok [1; 2].
Proof. repeat split; reflexivity. Qed.

(** C4. The claim: an empty-input error exactly when one of [L], [N] is zero
    and the other is not, an uneven-distribution error exactly when both are
    nonzero and [L] does not divide [N].  On the code, [L = 2, N = 0]
    returns the empty list without any error, [L = 0, N = 0] raises the
    empty-input error, [L = 0, N = 2] raises [IndexError], and
    [L = 2, N = 3] raises [IndexError] too; [L = 3, N = 2] is the one case
    refused as uneven. *)
Theorem expand_validation_cases :
  _expand_to_requested_array_size (Tuple [1; 2]) 0 = Ok []
  /\ _expand_to_requested_array_size (Tuple (@nil Z)) 0
     = Raise (ValueError "Empty array input")
  /\ _expand_to_requested_array_size (Tuple (@nil Z)) 2 = Raise IndexError
  /\ _expand_to_requested_array_size (Tuple [1; 2]) 3 = Raise IndexError
  /\ _expand_to_requested_array_size (Tuple [1; 2; 3]) 2
     = Raise (ValueError "Input array does not evenly distribute into sessions").
Proof. repeat split; reflexivity. Qed.

(** ** Pin classification *)

(** The flag returned by [_identify_pin_types] tells whether the last name
    of the request was missing from the roster, whatever came before it. *)
Lemma identify_flag_is_last (tsm_context : nitsm.SemiconductorModuleContext)
  (pins : list string) (pin : string) (types : list PinType) (found : bool) :
  _identify_pin_types tsm_context (pins ++ [pin]) = Ok (types, found) ->
  found = bool_decide
            (list_index String.eqb pin
               (fst (_get_all_pin_names tsm_context false)) = None).
Proof.
  unfold _identify_pin_types.
  destruct (_get_all_pin_names tsm_context false) as [names tys]. simpl.
  generalize (@nil PinType, false).
  induction pins as [|p pins IH]; intros st; simpl.
  - destruct st as [filtered flag]. unfold identify_step.
    destruct (list_index String.eqb pin names) as [k|]; simpl.
    + destruct (py_getitem tys (Z.of_nat k)); simpl; [|discriminate].
      intros [= _ <-]. done.
    + intros [= _ <-]. done.
  - destruct (identify_step names tys st p) as [st'|e]; simpl; [|discriminate].
    apply IH.
Qed.

(** C2. The claim: with DUT pins [A], [B], system pin [Clk] and group [G1]
    of [A] and [B], classifying [["G1", "Clk"]] yields [A], [B] as DUT pins
    and [Clk] as system pin, no group left.  On the code the request comes
    back as it is, [G1] typed [Pin_Group] and [Clk] typed [System_Pin]: the
    group flag is cleared by [Clk], the provider is never asked. *)
Theorem classify_group_then_pin_keeps_group :
  forall sites provider sessions,
    _check_for_pin_group (scenario_context sites provider sessions) ["G1"; "Clk"]
    = Ok ([Pin_Group; System_Pin], ["G1"; "Clk"]).
Proof. intros. reflexivity. Qed.

(** ** Driver traces *)

Section TraceRules.

Context `{NiScope}.

Lemma issues_ret {A : Type} (a : A) (post : A -> Prop) :
  post a -> issues (mret a) [] post.
Proof.
  intros Ha log. exists []. simpl. rewrite app_nil_r.
  split; [done|]. split; [done|]. split; [|by eauto].
  by intros ? [= <-].
Qed.

Lemma issues_lift_raise {A : Type} (e : exn) (post : A -> Prop) (cs : list event) :
  (never_raises -> False) -> issues (lift (@Raise A e)) cs post.
Proof.
  intros Hno log. exists []. simpl. rewrite app_nil_r.
  split; [done|]. split; [apply prefix_nil|]. split; [discriminate|].
  intros Hq. destruct (Hno Hq).
Qed.

Lemma issues_invoke (s : niscope.Session) (c : niscope.call) :
  issues (invoke s c) [(s, c)] (fun _ => True).
Proof.
  intros log. exists [(s, c)]. unfold invoke. simpl.
  split; [done|]. split; [done|]. split; [done|].
  intros Hq. rewrite Hq. eauto.
Qed.

Lemma issues_invoke_fetch (s : niscope.Session) (c : niscope.call) :
  issues (invoke_fetch s c) [(s, c)] (fun _ => True).
Proof.
  intros log. exists [(s, c)]. unfold invoke_fetch. simpl.
  split; [done|]. split; [done|]. split; [done|].
  intros Hq. rewrite Hq. eauto.
Qed.

Lemma issues_bound_method (s : niscope.Session) (c : niscope.call) :
  issues (bound_method s c) [] (fun _ => True).
Proof. by apply issues_ret. Qed.

Lemma issues_bind {A B : Type} (m : Driver A) (f : A -> Driver B)
  (cs1 cs2 : list event) (mid : A -> Prop) (post : B -> Prop) :
  issues m cs1 mid ->
  (forall a, mid a -> issues (f a) cs2 post) ->
  issues (m ≫= f) (cs1 ++ cs2) post.
Proof.
  intros Hm Hf log.
  destruct (Hm log) as (c1 & E1 & P1 & O1 & Q1).
  unfold mbind, Driver_bind.
  destruct (m log) as [[a|e] log'] eqn:E; simpl in *; subst log'.
  - destruct (O1 a eq_refl) as [-> Ha].
    destruct (Hf a Ha (log ++ cs1)) as (c2 & E2 & P2 & O2 & Q2).
    exists (cs1 ++ c2). rewrite E2, app_assoc.
    split; [done|]. split; [by apply prefix_app|]. split; [|done].
    intros b Hb. by destruct (O2 b Hb) as [-> ?].
  - exists c1. split; [done|]. split; [by apply prefix_app_r|].
    split; [discriminate|].
    intros Hq. destruct (Q1 Hq) as [a Ha]. discriminate.
Qed.

Lemma issues_weaken {A : Type} (m : Driver A) (cs : list event)
  (post post' : A -> Prop) :
  issues m cs post -> (forall a, post a -> post' a) -> issues m cs post'.
Proof.
  intros Hm Hp log. destruct (Hm log) as (c1 & E1 & P1 & O1 & Q1).
  exists c1. split; [done|]. split; [done|]. split; [|done].
  intros a Ha. destruct (O1 a Ha) as [-> Hpa]. split; [done|by apply Hp].
Qed.

Lemma issues_for_fold {S A : Type} (body : S -> A -> Driver S)
  (calls : A -> list event) (inv : S -> Prop) (l : list A) (st : S) :
  (forall st x, inv st -> issues (body st x) (calls x) inv) ->
  inv st ->
  issues (for_fold body l st) (l ≫= calls) inv.
Proof.
  intros Hbody. revert st. induction l as [|x l IH]; intros st Hst; simpl.
  - by apply issues_ret.
  - eapply issues_bind; [by apply Hbody|]. intros st' Hst'. by apply IH.
Qed.

Lemma issues_for_each {A : Type} (body : A -> Driver unit)
  (calls : A -> list event) (l : list A) :
  (forall x, issues (body x) (calls x) (fun _ => True)) ->
  issues (for_each l body) (l ≫= calls) (fun _ => True).
Proof.
  intros Hbody. unfold for_each.
  apply (issues_for_fold (fun _ x => body x) calls (fun _ => True) l tt);
    [|done].
  intros st x Hst. apply Hbody.
Qed.

(** What [issues] says of one run. *)
Lemma issues_run {A : Type} (m : Driver A) (cs : list event) (post : A -> Prop)
  (log : list event) :
  issues m cs post -> never_raises ->
  exists a, m log = (Ok a, log ++ cs) /\ post a.
Proof.
  intros Hm Hq. destruct (Hm log) as (c1 & E1 & P1 & O1 & Q1).
  destruct (Q1 Hq) as [a Ha]. destruct (O1 a Ha) as [-> Hp].
  exists a. split; [|done]. destruct (m log); simpl in *. congruence.
Qed.

End TraceRules.

(** ** Acquisition start *)

Section AcquisitionStart.

Context `{NiScope}.

(** Whatever the driver does, the calls issued are the expected ones, cut
    short by the first that raises. *)
Lemma start_acquisition_issues (tsm : TSMScope) :
  issues (tsm_ssc_scope_start_acquisition tsm)
    (expected_acquisition_calls (ssc tsm)) (fun r => r = tsm).
Proof.
  unfold tsm_ssc_scope_start_acquisition, expected_acquisition_calls.
  rewrite <- (app_nil_r (_ ≫= _)).
  eapply issues_bind.
  - apply issues_for_each. intros x.
    eapply (issues_bind _ _ [_] [_]); [apply issues_invoke|].
    intros _ _. apply issues_invoke.
  - intros _ _. by apply issues_ret.
Qed.

Lemma expected_acquisition_calls_snoc (l : list SSCScope) (x : SSCScope) :
  expected_acquisition_calls (l ++ [x])
  = (session x, niscope.abort) :: (session x, niscope.initiate)
      :: expected_acquisition_calls l.
Proof. unfold expected_acquisition_calls. by rewrite reverse_snoc. Qed.

Lemma expected_acquisition_calls_length (entries : list SSCScope) :
  length (expected_acquisition_calls entries) = (2 * length entries)%nat.
Proof.
  induction entries as [|x l IH] using rev_ind; [done|].
  rewrite expected_acquisition_calls_snoc, length_app.
  simpl. rewrite IH. lia.
Qed.

(** Entry [i] of [n] is served at rank [n - 1 - i]: its abort is call
    number [2 * (n - 1 - i)], its initiate the next one. *)
Lemma expected_acquisition_calls_lookup (entries : list SSCScope) (i : nat)
  (e : SSCScope) :
  entries !! i = Some e ->
  expected_acquisition_calls entries !! (2 * (length entries - 1 - i))%nat
    = Some (session e, niscope.abort)
  /\ expected_acquisition_calls entries !! (2 * (length entries - 1 - i) + 1)%nat
    = Some (session e, niscope.initiate).
Proof.
  revert i. induction entries as [|x l IH] using rev_ind; intros i Hi; [done|].
  rewrite expected_acquisition_calls_snoc, length_app. simpl length.
  destruct (decide (i = length l)) as [->|Hne].
  - rewrite lookup_app_r, Nat.sub_diag in Hi by lia. injection Hi as <-.
    replace (length l + 1 - 1 - length l)%nat with 0%nat by lia. done.
  - assert (i < length l)%nat as Hlt.
    { apply lookup_lt_Some in Hi. rewrite length_app in Hi. simpl in Hi. lia. }
    rewrite lookup_app_l in Hi by done.
    destruct (IH i Hi) as [Ha Hb].
    replace (2 * (length l + 1 - 1 - i))%nat
      with (S (S (2 * (length l - 1 - i)))) by lia.
    split; [exact Ha|exact Hb].
Qed.

End AcquisitionStart.

(** C6. When the driver raises nothing, starting the acquisition returns the
    aggregate after an abort followed by an initiate on every entry's
    session, the entries taken in the reverse of the aggregate order: the
    entry at index [i] of [n] is served at rank [n - 1 - i]. *)
Theorem start_acquisition_reverse_order `{NiScope} (tsm : TSMScope)
  (log : list event) :
  never_raises ->
  tsm_ssc_scope_start_acquisition tsm log
  = (Ok tsm, log ++ expected_acquisition_calls (ssc tsm))
  /\ length (expected_acquisition_calls (ssc tsm)) = (2 * length (ssc tsm))%nat
  /\ forall i e, ssc tsm !! i = Some e ->
       expected_acquisition_calls (ssc tsm) !! (2 * (length (ssc tsm) - 1 - i))%nat
         = Some (session e, niscope.abort)
       /\ expected_acquisition_calls (ssc tsm) !! (2 * (length (ssc tsm) - 1 - i) + 1)%nat
         = Some (session e, niscope.initiate).
Proof.
  intros Hq. split; [|split].
  - destruct (issues_run _ _ _ log (start_acquisition_issues tsm) Hq)
      as (a & -> & ->). done.
  - apply expected_acquisition_calls_length.
  - intros i e Hi. by apply expected_acquisition_calls_lookup.
Qed.

Lemma quiet_driver_never_raises : @never_raises quiet_driver.
Proof. intros log ev. reflexivity. Qed.

Lemma start_acquisition_reverse_order_witness :
  @never_raises quiet_driver
  /\ @tsm_ssc_scope_start_acquisition quiet_driver
       (scenario_aggregate [scenario_entry 0; scenario_entry 1; scenario_entry 2]) []
     = (Ok (scenario_aggregate [scenario_entry 0; scenario_entry 1; scenario_entry 2]),
        [(scenario_session 2, niscope.abort); (scenario_session 2, niscope.initiate);
         (scenario_session 1, niscope.abort); (scenario_session 1, niscope.initiate);
         (scenario_session 0, niscope.abort); (scenario_session 0, niscope.initiate)]).
Proof.
  split; [exact quiet_driver_never_raises|].
  exact (proj1 (@start_acquisition_reverse_order quiet_driver
    (scenario_aggregate [scenario_entry 0; scenario_entry 1; scenario_entry 2]) []
    quiet_driver_never_raises)).
Defined.

(** A call that raises ends the run: with a driver whose [initiate] fails,
    the acquisition start stops after the first entry served, the last of
    the aggregate. *)
Example start_acquisition_stops_at_failure :
  @tsm_ssc_scope_start_acquisition (failing_initiate_driver 7)
    (scenario_aggregate [scenario_entry 0; scenario_entry 1]) []
  = (Raise (DriverError 7),
     [(scenario_session 1, niscope.abort); (scenario_session 1, niscope.initiate)]).
Proof. reflexivity. Qed.

(** ** Statistics measurement *)

Section Statistics.

Context `{NiScope}.

Lemma measure_statistics_issues (tsm : TSMScope) (f : niscope.ScalarMeasurement) :
  issues (scope_measure_statistics tsm f)
    (expected_statistics_calls f (ssc tsm)) (fun r => r.1 = tsm).
Proof.
  unfold scope_measure_statistics, expected_statistics_calls.
  rewrite <- (app_nil_r (_ ≫= _)).
  eapply issues_bind.
  - apply (issues_for_fold _ _ (fun _ => True)); [|done].
    intros st x _. unfold measure_step.
    eapply (issues_bind _ _ [_] [_; _]); [apply issues_invoke|]. intros _ _.
    eapply (issues_bind _ _ [_] [_]); [apply issues_invoke|]. intros _ _.
    rewrite <- (app_nil_r [_]).
    eapply issues_bind; [apply issues_invoke_fetch|]. intros stats _.
    by apply issues_ret.
  - intros stats _. by apply issues_ret.
Qed.

(** In the expected calls a fetch comes right after the clear and the
    initiate of the same entry. *)
Lemma expected_statistics_fetch_guarded (f : niscope.ScalarMeasurement)
  (entries : list SSCScope) (pre post : list event) (s : niscope.Session)
  (ch : string) (f' : niscope.ScalarMeasurement) :
  expected_statistics_calls f entries
  = pre ++ (s, niscope.fetch_measurement_stats ch f') :: post ->
  exists pre',
    pre = pre' ++ [(s, niscope.clear_waveform_measurement_stats ch
                         niscope.ALL_MEASUREMENTS);
                   (s, niscope.initiate)].
Proof.
  revert pre. induction entries as [|e l IH]; intros pre Hpre.
  - by destruct pre.
  - unfold expected_statistics_calls in *. simpl in Hpre.
    destruct pre as [|p1 [|p2 [|p3 pre]]]; simpl in Hpre.
    + discriminate.
    + discriminate.
    + injection Hpre as <- <- Hs Hc _ _. subst. by exists [].
    + injection Hpre as <- <- <- Hrest.
      destruct (IH pre Hrest) as [pre' ->].
      eexists (_ :: _ :: _ :: pre'). reflexivity.
Qed.

(** Whatever the driver does, also when one of its calls raises: no fetch
    is issued on an entry unless the two calls issued just before it are
    the clear and the initiate of that entry. *)
Lemma measure_statistics_fetch_guarded (tsm : TSMScope)
  (f f' : niscope.ScalarMeasurement) (log pre post : list event)
  (s : niscope.Session) (ch : string) :
  (scope_measure_statistics tsm f log).2
  = log ++ pre ++ (s, niscope.fetch_measurement_stats ch f') :: post ->
  exists pre',
    pre = pre' ++ [(s, niscope.clear_waveform_measurement_stats ch
                         niscope.ALL_MEASUREMENTS);
                   (s, niscope.initiate)].
Proof.
  intros Hrun.
  destruct (measure_statistics_issues tsm f log) as (cs' & E & [rest Hrest] & _).
  rewrite E in Hrun. apply app_inv_head in Hrun. subst cs'.
  rewrite <- app_assoc in Hrest. simpl in Hrest.
  by eapply expected_statistics_fetch_guarded.
Qed.

End Statistics.

(** C9. When the driver raises nothing, the statistics measurement returns
    the aggregate after the calls clear, initiate, fetch on every entry in
    turn, and every fetch among them comes right after the clear and the
    initiate of the same entry. *)
Theorem measure_statistics_clear_initiate_fetch `{NiScope} (tsm : TSMScope)
  (f : niscope.ScalarMeasurement) (log : list event) :
  never_raises ->
  (exists stats,
      scope_measure_statistics tsm f log
      = (Ok (tsm, stats), log ++ expected_statistics_calls f (ssc tsm)))
  /\ forall pre post s ch f',
       expected_statistics_calls f (ssc tsm)
       = pre ++ (s, niscope.fetch_measurement_stats ch f') :: post ->
       exists pre',
         pre = pre' ++ [(s, niscope.clear_waveform_measurement_stats ch
                              niscope.ALL_MEASUREMENTS);
                        (s, niscope.initiate)].
Proof.
  intros Hq. split.
  - destruct (issues_run _ _ _ log (measure_statistics_issues tsm f) Hq)
      as ([tsm' stats] & -> & Htsm). simpl in Htsm. subst tsm'. by exists stats.
  - intros pre post s ch f' Hdec. by eapply expected_statistics_fetch_guarded.
Qed.

Lemma measure_statistics_clear_initiate_fetch_witness :
  @never_raises quiet_driver
  /\ exists stats,
      @scope_measure_statistics quiet_driver
        (scenario_aggregate [scenario_entry 0; scenario_entry 1]) 5 []
      = (Ok (scenario_aggregate [scenario_entry 0; scenario_entry 1], stats),
         [(scenario_session 0,
            niscope.clear_waveform_measurement_stats "0" niscope.ALL_MEASUREMENTS);
          (scenario_session 0, niscope.initiate);
          (scenario_session 0, niscope.fetch_measurement_stats "0" 5);
          (scenario_session 1,
            niscope.clear_waveform_measurement_stats "0" niscope.ALL_MEASUREMENTS);
          (scenario_session 1, niscope.initiate);
          (scenario_session 1, niscope.fetch_measurement_stats "0" 5)]).
Proof.
  split; [exact quiet_driver_never_raises|].
  exact (proj1 (@measure_statistics_clear_initiate_fetch quiet_driver
    (scenario_aggregate [scenario_entry 0; scenario_entry 1]) 5 []
    quiet_driver_never_raises)).
Defined.

(** ** Abort *)

(** C10. The claim: [abort] invokes the driver's abort on every entry's
    session, taking an armed session back to [Configured].  On the code,
    for every aggregate, [abort] returns the aggregate with the call log
    unchanged: [ssc.session.abort] is read, not called.  So no
    session changes state, and a session armed by an [initiate] is still
    [Armed] afterwards, where [tsm_ssc_scope_start_acquisition] does issue
    the abort. *)
Theorem abort_issues_no_call (tsm : TSMScope) (log : list event) :
  abort tsm log = (Ok tsm, log)
  /\ (forall s st,
        lifecycle_after s (abort tsm log).2 st = lifecycle_after s log st)
  /\ lifecycle_after (scenario_session 0)
       (abort (scenario_aggregate [scenario_entry 0])
          [(scenario_session 0, niscope.initiate)]).2 Configured = Armed
  /\ (@tsm_ssc_scope_start_acquisition quiet_driver
        (scenario_aggregate [scenario_entry 0])
        [(scenario_session 0, niscope.initiate)]).2
     = [(scenario_session 0, niscope.initiate);
        (scenario_session 0, niscope.abort);
        (scenario_session 0, niscope.initiate)].
Proof.
  assert (abort tsm log = (Ok tsm, log)) as Hrun.
  { unfold abort, for_each.
    assert (forall l, for_fold (fun _ scope_ssc =>
              bound_method (session scope_ssc) niscope.abort) l tt log
            = (Ok tt, log)) as Hloop.
    { induction l as [|x l IH]; [done|]. simpl.
      unfold mbind, Driver_bind. simpl. exact IH. }
    unfold mbind at 1, Driver_bind at 1. by rewrite Hloop. }
  split; [exact Hrun|]. split; [|split; reflexivity].
  intros s st. by rewrite Hrun.
Qed.

(** ** Trigger export *)

Section TriggerExport.

Context `{NiScope}.

Lemma issues_for_fold_elem {S A : Type} (body : S -> A -> Driver S)
  (calls : A -> list event) (inv : S -> Prop) (l : list A) (st : S) :
  (forall st x, x ∈ l -> inv st -> issues (body st x) (calls x) inv) ->
  inv st ->
  issues (for_fold body l st) (l ≫= calls) inv.
Proof.
  revert st. induction l as [|x l IH]; intros st Hbody Hst; simpl.
  - by apply issues_ret.
  - eapply issues_bind; [apply Hbody; [by left|done]|].
    intros st' Hst'. apply IH; [|done].
    intros st'' y Hy. apply Hbody. by right.
Qed.

Lemma SSCScope_eqb_refl (e : SSCScope) : SSCScope_eqb e e = true.
Proof.
  unfold SSCScope_eqb, niscope.Session_is.
  by rewrite Nat.eqb_refl, !String.eqb_refl.
Qed.

Lemma list_index_elem (e : SSCScope) (l : list SSCScope) :
  e ∈ l -> is_Some (list_index SSCScope_eqb e l).
Proof.
  induction 1 as [e l|e y l Hin IH]; simpl.
  - rewrite SSCScope_eqb_refl. eauto.
  - destruct (SSCScope_eqb y e); [eauto|].
    destruct IH as [k ->]. simpl. eauto.
Qed.

(** The first entry takes the master branch. *)
Lemma export_step_master (master : SSCScope) (slaves : list SSCScope)
  (output_terminal start_trigger : string) :
  issues (export_step (master :: slaves) output_terminal start_trigger master)
    (expected_master_calls output_terminal master)
    (fun st => st = trigger_path master output_terminal).
Proof.
  unfold export_step. simpl. rewrite SSCScope_eqb_refl. simpl.
  unfold expected_master_calls.
  eapply (issues_bind _ _ [_] [_; _]); [apply issues_invoke|]. intros _ _.
  eapply (issues_bind _ _ [_] [_]); [apply issues_invoke|]. intros _ _.
  rewrite <- (app_nil_r [_]).
  eapply issues_bind; [apply issues_invoke|]. intros _ _.
  by apply issues_ret.
Qed.

(** A later entry that differs from the first takes the slave branch. *)
Lemma export_step_slave (master e : SSCScope) (slaves : list SSCScope)
  (output_terminal path : string) :
  e ∈ slaves -> SSCScope_eqb master e = false ->
  issues (export_step (master :: slaves) output_terminal path e)
    [(session e, niscope.configure_trigger_digital path niscope.POSITIVE 0 0);
     (session e, niscope.initiate)]
    (fun st => st = path).
Proof.
  intros Hin Hne. unfold export_step. simpl. rewrite Hne.
  destruct (list_index_elem e slaves Hin) as [k ->]. simpl.
  eapply (issues_bind _ _ [_] [_]); [apply issues_invoke|]. intros _ _.
  rewrite <- (app_nil_r [_]).
  eapply issues_bind; [apply issues_invoke|]. intros _ _.
  by apply issues_ret.
Qed.

(** On an aggregate none of whose later entries equals the first, the
    export does what the trigger fan-out asks: the first entry is the
    master, every other entry a slave on the master's path, in aggregate
    order. *)
Lemma export_start_triggers_issues (pq : nitsm.PinQueryContext) (sites : list Z)
  (master : SSCScope) (slaves : list SSCScope) (output_terminal : string) :
  Forall (fun e => SSCScope_eqb master e = false) slaves ->
  let tsm := {| pin_query_context := pq; site_numbers := sites;
                ssc := master :: slaves |} in
  issues (tsm_ssc_scope_export_start_triggers tsm output_terminal)
    (expected_master_calls output_terminal master
     ++ expected_slave_calls (trigger_path master output_terminal) slaves)
    (fun r => r = (tsm, trigger_path master output_terminal)).
Proof.
  intros Hdistinct tsm. unfold tsm_ssc_scope_export_start_triggers.
  rewrite <- (app_nil_r (_ ++ _)).
  eapply issues_bind.
  - change (ssc tsm) with (master :: slaves).
    rewrite bool_decide_eq_false_2 by discriminate.
    change (for_fold ?b (master :: slaves) ?st)
      with (st' ← b st master; for_fold b slaves st').
    eapply issues_bind; [apply export_step_master|].
    intros st ->. unfold expected_slave_calls.
    apply (issues_for_fold_elem _ _
             (fun st => st = trigger_path master output_terminal));
      [|done].
    intros st x Hx ->. apply export_step_slave; [done|].
    rewrite Forall_forall in Hdistinct. by apply Hdistinct.
  - intros st ->. by apply issues_ret.
Qed.

End TriggerExport.

(** The same, as one run under a driver that raises nothing. *)
Lemma export_start_triggers_distinct_first `{NiScope} (pq : nitsm.PinQueryContext)
  (sites : list Z) (master : SSCScope) (slaves : list SSCScope)
  (output_terminal : string) (log : list event) :
  never_raises ->
  Forall (fun e => SSCScope_eqb master e = false) slaves ->
  let tsm := {| pin_query_context := pq; site_numbers := sites;
                ssc := master :: slaves |} in
  tsm_ssc_scope_export_start_triggers tsm output_terminal log
  = (Ok (tsm, trigger_path master output_terminal),
     log ++ expected_master_calls output_terminal master
         ++ expected_slave_calls (trigger_path master output_terminal) slaves).
Proof.
  intros Hq Hdistinct tsm. subst tsm.
  destruct (issues_run _ _ _ log
    (export_start_triggers_issues pq sites master slaves output_terminal Hdistinct) Hq)
    as (a & -> & ->). done.
Qed.

(** C5. The claim: for every non-empty aggregate the entry at index 0, and
    no other, is configured as master and every later entry as a slave that
    is initiated.  On the code the master is every entry equal to the first
    one ([tsm.ssc.index(ssc) == 0]): in the aggregate of one entry listed
    twice the entry at index 1 is configured as master a second time, and
    is neither given the digital-edge trigger nor initiated.  On the three
    distinct sessions of the fan-out scenario the code does as claimed. *)
Theorem export_start_triggers_repeated_first_entry :
  @tsm_ssc_scope_export_start_triggers quiet_driver
     (scenario_aggregate [scenario_entry 0; scenario_entry 0]) "PFI0" []
  = (Ok (scenario_aggregate [scenario_entry 0; scenario_entry 0], "/Dev0/PFI0"),
     [(scenario_session 0, niscope.configure_trigger_immediate);
      (scenario_session 0, niscope.set_exported_start_trigger_output_terminal "PFI0");
      (scenario_session 0, niscope.commit);
      (scenario_session 0, niscope.configure_trigger_immediate);
      (scenario_session 0, niscope.set_exported_start_trigger_output_terminal "PFI0");
      (scenario_session 0, niscope.commit)])
  /\ expected_master_calls "PFI0" (scenario_entry 0)
     ++ expected_slave_calls "/Dev0/PFI0" [scenario_entry 0]
     = [(scenario_session 0, niscope.configure_trigger_immediate);
        (scenario_session 0, niscope.set_exported_start_trigger_output_terminal "PFI0");
        (scenario_session 0, niscope.commit);
        (scenario_session 0,
          niscope.configure_trigger_digital "/Dev0/PFI0" niscope.POSITIVE 0 0);
        (scenario_session 0, niscope.initiate)]
  /\ @tsm_ssc_scope_export_start_triggers quiet_driver
       (scenario_aggregate [scenario_entry 0; scenario_entry 1; scenario_entry 2])
       "PFI0" []
     = (Ok (scenario_aggregate [scenario_entry 0; scenario_entry 1; scenario_entry 2],
            "/Dev0/PFI0"),
        [(scenario_session 0, niscope.configure_trigger_immediate);
         (scenario_session 0, niscope.set_exported_start_trigger_output_terminal "PFI0");
         (scenario_session 0, niscope.commit);
         (scenario_session 1,
           niscope.configure_trigger_digital "/Dev0/PFI0" niscope.POSITIVE 0 0);
         (scenario_session 1, niscope.initiate);
         (scenario_session 2,
           niscope.configure_trigger_digital "/Dev0/PFI0" niscope.POSITIVE 0 0);
         (scenario_session 2, niscope.initiate)]).
Proof. repeat split; vm_compute; reflexivity. Qed.

(** ** Splitting and joining channel strings *)

Section SplitJoin.

Lemma rev_app_append (s1 s2 t : string) :
  String.rev_app s1 s2 +:+ t = String.rev_app s1 (s2 +:+ t).
Proof. revert s2. induction s1 as [|a s1 IH]; intros s2; simpl; [done|apply IH]. Qed.

Lemma append_empty_r (s : string) : s +:+ "" = s.
Proof.
  induction s as [|a s IH]; [done|].
  change (String a s +:+ "") with (String a (s +:+ "")). by rewrite IH.
Qed.

Lemma rev_push (c : ascii) (piece t : string) :
  String.rev (String c piece) +:+ t = String.rev piece +:+ String c t.
Proof. unfold String.rev. simpl. by rewrite !rev_app_append. Qed.

Lemma comma_is_no_space (c : ascii) : is_comma c = true -> is_space c = false.
Proof.
  unfold is_comma. intros Hc. apply Ascii.eqb_eq in Hc. by subst c.
Qed.

Lemma comma_tight_tail (a : ascii) (s : string) :
  comma_tight (String a s) = true -> comma_tight s = true.
Proof.
  simpl. destruct s as [|b s]; [done|].
  intros Ht. by apply andb_prop in Ht as [_ Ht].
Qed.

(** In a tight string a run of white space is never followed by a comma. *)
Lemma skip_spaces_tight (a : ascii) (s : string) :
  comma_tight (String a s) = true -> is_space a = true ->
  match skip_spaces (String a s) with
  | String c _ => is_comma c = false
  | EmptyString => True
  end.
Proof.
  revert a. induction s as [|b s IH]; intros a Ht Ha.
  - simpl. by rewrite Ha.
  - pose proof (comma_tight_tail _ _ Ht) as Ht'.
    simpl in Ht. rewrite Ha in Ht. simpl in Ht.
    apply andb_prop in Ht as [Ht _]. apply andb_prop in Ht as [Hb _].
    apply negb_true_iff in Hb.
    change (skip_spaces (String a (String b s)))
      with (if is_space a then skip_spaces (String b s) else String a (String b s)).
    rewrite Ha. destruct (is_space b) eqn:Hsb.
    + by apply IH.
    + simpl. by rewrite Hsb.
Qed.

(** In a tight string the separator matches at a comma only, and eats
    nothing but the comma. *)
Lemma match_separator_tight (s rest : string) :
  comma_tight s = true -> match_separator s = Some rest -> s = String "," rest.
Proof.
  intros Ht Hm. unfold match_separator in Hm.
  destruct s as [|a s]; [done|].
  destruct (is_space a) eqn:Ha.
  - pose proof (skip_spaces_tight a s Ht Ha) as Hno.
    destruct (skip_spaces (String a s)) as [|c s'']; [done|].
    by rewrite Hno in Hm.
  - simpl in Hm. rewrite Ha in Hm.
    destruct (is_comma a) eqn:Hc; [|done].
    injection Hm as <-.
    unfold is_comma in Hc. apply Ascii.eqb_eq in Hc. subst a. f_equal.
    destruct s as [|b s]; [done|].
    simpl in Ht. apply andb_prop in Ht as [Hb _].
    apply negb_true_iff in Hb. simpl. by rewrite Hb.
Qed.

Lemma re_split_scan_cons (s piece : string) :
  exists x l, re_split_scan s piece = x :: l.
Proof. funelim (re_split_scan s piece); eauto. Qed.

Lemma join_cons (x : string) (l : list string) :
  l <> [] -> join "," (x :: l) = x +:+ "," +:+ join "," l.
Proof. by destruct l. Qed.

Lemma join_re_split_scan (s piece : string) :
  comma_tight s = true ->
  join "," (re_split_scan s piece) = String.rev piece +:+ s.
Proof.
  funelim (re_split_scan s piece); intros Ht.
  - (* a separator matches here *)
    pose proof (match_separator_tight _ _ Ht e) as ->.
    match goal with IH : comma_tight rest = true -> _ |- _ =>
      specialize (IH (comma_tight_tail _ _ Ht)) end.
    destruct (re_split_scan_cons rest "") as (x & l & Hx).
    rewrite join_cons by (by rewrite Hx).
    match goal with IH : join _ _ = _ |- _ => rewrite IH end.
    done.
  - (* end of the text *)
    simpl. by rewrite append_empty_r.
  - (* one more character of the piece *)
    match goal with IH : comma_tight s' = true -> _ |- _ =>
      rewrite (IH (comma_tight_tail _ _ Ht)) end.
    apply rev_push.
Qed.

(** Splitting a tight string and joining the pieces gives it back. *)
Lemma join_re_split_commas (s : string) :
  comma_tight s = true -> join "," (re_split_commas s) = s.
Proof. intros Ht. unfold re_split_commas. by rewrite join_re_split_scan. Qed.

End SplitJoin.

(** ** Per-channel expansion *)

Section Expansion.

Lemma bind_singleton_fmap {A B : Type} (f : A -> list B) (g : A -> B)
  (l : list A) :
  (forall x, f x = [g x]) -> l ≫= f = g <$> l.
Proof.
  intros Hf. induction l as [|x l IH]; [done|].
  rewrite bind_cons, IH, Hf. done.
Qed.

(** The entries that come from one source entry. *)
Lemma expand_one (e : SSCScope) :
  _expand_ssc_to_ssc_per_channel [e]
  = per_channel_entry e
      <$> zip (re_split_commas (channels e)) (re_split_commas (channel_list e)).
Proof.
  unfold _expand_ssc_to_ssc_per_channel.
  rewrite bind_cons. change ([] ≫= _) with (@nil SSCScope).
  rewrite app_nil_r. apply bind_singleton_fmap. by intros [channel pin].
Qed.

Lemma expand_app (a b : list SSCScope) :
  _expand_ssc_to_ssc_per_channel (a ++ b)
  = _expand_ssc_to_ssc_per_channel a ++ _expand_ssc_to_ssc_per_channel b.
Proof. unfold _expand_ssc_to_ssc_per_channel. apply bind_app. Qed.

(** The expansion of an aggregate is, entry by entry, the expansion of
    its entries. *)
Lemma expand_middle (pre post : list SSCScope) (e : SSCScope) :
  _expand_ssc_to_ssc_per_channel (pre ++ e :: post)
  = _expand_ssc_to_ssc_per_channel pre
    ++ _expand_ssc_to_ssc_per_channel [e]
    ++ _expand_ssc_to_ssc_per_channel post.
Proof.
  rewrite (expand_app pre). f_equal. apply (expand_app [e] post).
Qed.

End Expansion.

(** C7, as the code has it.  Per-channel expansion never fails.  The entries
    that come from a source entry pair its split channels and its split
    channel list position by position, as many of them as the shorter of
    the two lists has: the surplus positions of the longer list are
    dropped. *)
Theorem expand_pairs_up_to_shorter (pre post : list SSCScope) (e : SSCScope) :
  exists seg,
    _expand_ssc_to_ssc_per_channel (pre ++ e :: post)
    = _expand_ssc_to_ssc_per_channel pre ++ seg
      ++ _expand_ssc_to_ssc_per_channel post
    /\ length seg
       = (length (re_split_commas (channels e))
          `min` length (re_split_commas (channel_list e)))%nat
    /\ forall k ch pin,
         re_split_commas (channels e) !! k = Some ch ->
         re_split_commas (channel_list e) !! k = Some pin ->
         seg !! k = Some {| session := session e; channels := ch;
                            channel_list := pin |}.
Proof.
  exists (_expand_ssc_to_ssc_per_channel [e]).
  split; [apply expand_middle|]. rewrite expand_one. split.
  - by rewrite length_fmap, length_zip.
  - intros k ch pin Hch Hpin.
    rewrite list_lookup_fmap, lookup_zip_with, Hch. simpl. by rewrite Hpin.
Qed.

(** C7, counterexample.  An entry with two channels and one pin is expanded
    without failure into one per-channel entry; channel [1] is dropped. *)
Lemma expand_unequal_cardinality_silent :
  let e := {| session := scenario_session 0; channels := "0,1";
              channel_list := "Site0/A" |} in
  length (re_split_commas (channels e)) <> length (re_split_commas (channel_list e))
  /\ _expand_ssc_to_ssc_per_channel [e]
     = [ {| session := scenario_session 0; channels := "0";
            channel_list := "Site0/A" |} ].
Proof. split; [vm_compute; discriminate|reflexivity]. Qed.

Lemma expand_pairs_up_to_shorter_witness :
  exists seg,
    _expand_ssc_to_ssc_per_channel
      ([] ++ {| session := scenario_session 0; channels := "0,1";
                channel_list := "Site0/A" |} :: [])
    = [] ++ seg ++ []
    /\ length seg = 1%nat.
Proof.
  destruct (expand_pairs_up_to_shorter [] []
    {| session := scenario_session 0; channels := "0,1";
       channel_list := "Site0/A" |}) as (seg & Hseg & Hlen & _).
  exists seg. split; [exact Hseg|exact Hlen].
Defined.

(** C8, as the code has it.  For a source entry whose split channels and
    split channel list have equal cardinality and in whose two strings no
    comma has white space next to it, joining with [","] the channels, and
    likewise the channel lists, of the per-channel entries that come from
    it gives its two strings back. *)
Theorem expand_rejoin_tight (pre post : list SSCScope) (e : SSCScope) :
  length (re_split_commas (channels e)) = length (re_split_commas (channel_list e)) ->
  comma_tight (channels e) = true ->
  comma_tight (channel_list e) = true ->
  exists seg,
    _expand_ssc_to_ssc_per_channel (pre ++ e :: post)
    = _expand_ssc_to_ssc_per_channel pre ++ seg
      ++ _expand_ssc_to_ssc_per_channel post
    /\ length seg = length (re_split_commas (channels e))
    /\ Forall (fun x => session x = session e) seg
    /\ join "," (channels <$> seg) = channels e
    /\ join "," (channel_list <$> seg) = channel_list e.
Proof.
  intros Hlen Hch Hcl.
  exists (_expand_ssc_to_ssc_per_channel [e]).
  split; [apply expand_middle|]. rewrite expand_one.
  split; [|split; [|split]].
  - rewrite length_fmap, length_zip. lia.
  - apply Forall_fmap, Forall_forall. done.
  - rewrite <- list_fmap_compose.
    change (channels ∘ per_channel_entry e) with (@fst string string).
    rewrite fst_zip by lia. by apply join_re_split_commas.
  - rewrite <- list_fmap_compose.
    change (channel_list ∘ per_channel_entry e) with (@snd string string).
    rewrite snd_zip by lia. by apply join_re_split_commas.
Qed.

Lemma expand_rejoin_tight_witness :
  exists seg,
    _expand_ssc_to_ssc_per_channel
      ([scenario_entry 1]
       ++ {| session := scenario_session 0; channels := "0,1";
             channel_list := "Site0/A,Site0/B" |} :: [])
    = _expand_ssc_to_ssc_per_channel [scenario_entry 1] ++ seg
      ++ _expand_ssc_to_ssc_per_channel []
    /\ join "," (channels <$> seg) = "0,1"
    /\ join "," (channel_list <$> seg) = "Site0/A,Site0/B".
Proof.
  destruct (expand_rejoin_tight [scenario_entry 1] []
    {| session := scenario_session 0; channels := "0,1";
       channel_list := "Site0/A,Site0/B" |}
    eq_refl eq_refl eq_refl) as (seg & Hseg & _ & _ & Hch & Hcl).
  exists seg. split; [exact Hseg|]. split; [exact Hch|exact Hcl].
Defined.

(** C8, counterexample.  With a space after the comma the cardinalities
    agree, two and two, and the re-joined strings are not the source's:
    the separator pattern has eaten the space. *)
Lemma expand_rejoin_loses_spaces :
  let e := {| session := scenario_session 0; channels := "0, 1";
              channel_list := "Site0/A, Site0/B" |} in
  length (re_split_commas (channels e)) = length (re_split_commas (channel_list e))
  /\ join "," (channels <$> _expand_ssc_to_ssc_per_channel [e]) = "0,1"
  /\ join "," (channel_list <$> _expand_ssc_to_ssc_per_channel [e]) = "Site0/A,Site0/B"
  /\ join "," (channels <$> _expand_ssc_to_ssc_per_channel [e]) <> channels e
  /\ join "," (channel_list <$> _expand_ssc_to_ssc_per_channel [e]) <> channel_list e.
Proof. repeat split; try reflexivity; vm_compute; discriminate. Qed.

(** ** Channel-list resolver *)

Section Resolver.

Implicit Types (arr : list PinsCluster) (p q : site_pin) (pos : nat * nat).

Lemma py_index_lt (len : nat) (i : Z) (k : nat) :
  py_index len i = Some k -> (k < len)%nat.
Proof.
  unfold py_index. repeat case_bool_decide; intros [= <-]; lia.
Qed.

Lemma foldlM_app {S A : Type} (f : S -> A -> result S) (l1 l2 : list A) (s : S) :
  foldlM f (l1 ++ l2) s = foldlM f l1 s ≫= foldlM f l2.
Proof.
  revert s. induction l1 as [|x l1 IH]; intros s; simpl; [done|].
  destruct (f s x) as [s'|e]; simpl; [apply IH|done].
Qed.

(** *** One store *)

Lemma designated_inv arr (g c : Z) pos :
  designated arr g c = Some pos ->
  exists cluster,
    py_index (length arr) g = Some pos.1
    /\ arr !! pos.1 = Some cluster
    /\ py_index (length (Pins cluster)) c = Some pos.2.
Proof.
  unfold designated. intros Hd.
  destruct (py_index (length arr) g) as [k|]; [|done]. simpl in Hd.
  destruct (arr !! k) as [cluster|] eqn:Hk; [|done]. simpl in Hd.
  destruct (py_index (length (Pins cluster)) c) as [i|] eqn:Hi; [|done].
  injection Hd as <-. by exists cluster.
Qed.

Lemma store_pin_designated arr (g c : Z) (value : string) pos :
  designated arr g c = Some pos ->
  exists cluster,
    arr !! pos.1 = Some cluster
    /\ (pos.2 < length (Pins cluster))%nat
    /\ store_pin arr g c value
       = Ok (<[pos.1 := {| Pins := <[pos.2 := value]> (Pins cluster) |}]> arr).
Proof.
  intros Hd. destruct (designated_inv _ _ _ _ Hd) as (cluster & Hg & Hk & Hc).
  exists cluster. split; [done|]. split; [by eapply py_index_lt|].
  unfold store_pin, py_getitem, py_setitem. rewrite Hg. simpl. rewrite Hk.
  simpl. by rewrite Hc.
Qed.

Lemma widths_insert arr (k : nat) (cluster cluster' : PinsCluster) :
  arr !! k = Some cluster ->
  length (Pins cluster') = length (Pins cluster) ->
  widths (<[k := cluster']> arr) = widths arr.
Proof.
  intros Hk Hlen. unfold widths. rewrite list_fmap_insert, Hlen.
  apply list_insert_id. by rewrite list_lookup_fmap, Hk.
Qed.

(** The designated position depends on the widths only. *)
Lemma designated_widths arr arr' (g c : Z) :
  widths arr = widths arr' -> designated arr g c = designated arr' g c.
Proof.
  intros Hw. unfold designated.
  assert (length arr = length arr') as ->.
  { apply (f_equal length) in Hw. unfold widths in Hw.
    by rewrite !length_fmap in Hw. }
  destruct (py_index (length arr') g) as [k|]; [|done]. simpl.
  assert (widths arr !! k = widths arr' !! k) as Hk by (by rewrite Hw).
  unfold widths in Hk. rewrite !list_lookup_fmap in Hk.
  destruct (arr !! k) as [cl|], (arr' !! k) as [cl'|]; simpl in *; try done.
  by injection Hk as ->.
Qed.

Lemma slot_insert_same arr (k i : nat) (cluster : PinsCluster) (value : string) :
  arr !! k = Some cluster -> (i < length (Pins cluster))%nat ->
  slot (<[k := {| Pins := <[i := value]> (Pins cluster) |}]> arr) (k, i)
  = Some value.
Proof.
  intros Hk Hi. unfold slot. simpl.
  rewrite list_lookup_insert_eq by (by eapply lookup_lt_Some). simpl.
  by apply list_lookup_insert_eq.
Qed.

Lemma slot_insert_other arr (k i : nat) (cluster : PinsCluster) (value : string) pos :
  arr !! k = Some cluster -> pos <> (k, i) ->
  slot (<[k := {| Pins := <[i := value]> (Pins cluster) |}]> arr) pos
  = slot arr pos.
Proof.
  intros Hk Hne. unfold slot. destruct pos as [k' i']. simpl.
  destruct (decide (k' = k)) as [->|Hkk].
  - rewrite list_lookup_insert_eq by (by eapply lookup_lt_Some).
    rewrite Hk. simpl. apply list_lookup_insert_ne. congruence.
  - by rewrite list_lookup_insert_ne.
Qed.

(** *** The loops as one pass over the pairs *)

Lemma site_step_pairs (pin_names : list string) (pin_types : list PinType)
  arr (gs cs : list Z) (site_number : Z) :
  site_step pin_names pin_types arr (gs, cs, site_number)
  = foldlM pair_step
      (site_pin_pairs [gs] [cs] [site_number] pin_names pin_types) arr.
Proof.
  unfold site_step, site_pin_pairs. simpl. rewrite app_nil_r.
  revert arr.
  induction (zip (zip (zip gs cs) pin_names) pin_types)
    as [|[[[g c] pin] pin_type] items IH]; intros arr; [done|].
  rewrite bind_cons.
  change (foldlM (pin_step site_number) ((g, c, pin, pin_type) :: items) arr)
    with (pin_step site_number arr (g, c, pin, pin_type)
          ≫= foldlM (pin_step site_number) items).
  change (foldlM pair_step ([?x] ++ ?l) arr)
    with (pair_step arr x ≫= foldlM pair_step l).
  change (pair_step arr _)
    with (pin_step site_number arr (g, c, pin, pin_type)).
  destruct (pin_step site_number arr (g, c, pin, pin_type));
    simpl; [apply IH|done].
Qed.

Lemma site_pin_pairs_cons (gs cs : list Z) (site_number : Z)
  (group_rows index_rows : list (list Z)) (sites : list Z)
  (pin_names : list string) (pin_types : list PinType) :
  site_pin_pairs (gs :: group_rows) (cs :: index_rows) (site_number :: sites)
    pin_names pin_types
  = site_pin_pairs [gs] [cs] [site_number] pin_names pin_types
    ++ site_pin_pairs group_rows index_rows sites pin_names pin_types.
Proof. unfold site_pin_pairs. simpl. by rewrite app_nil_r. Qed.

Lemma sites_loop_pairs (pin_names : list string) (pin_types : list PinType)
  (group_rows index_rows : list (list Z)) (sites : list Z) arr :
  foldlM (site_step pin_names pin_types)
    (zip (zip group_rows index_rows) sites) arr
  = foldlM pair_step
      (site_pin_pairs group_rows index_rows sites pin_names pin_types) arr.
Proof.
  revert index_rows sites arr.
  induction group_rows as [|gs group_rows IH];
    intros [|cs index_rows] [|site_number sites] arr; try done.
  rewrite site_pin_pairs_cons, foldlM_app.
  change (foldlM (site_step pin_names pin_types) _ arr)
    with (site_step pin_names pin_types arr (gs, cs, site_number)
          ≫= foldlM (site_step pin_names pin_types)
               (zip (zip group_rows index_rows) sites)).
  rewrite site_step_pairs.
  destruct (foldlM pair_step _ arr); simpl; [apply IH|done].
Qed.

(** *** The pass over the pairs *)

Lemma pairs_pass (pairs : list site_pin) arr :
  Forall (fun p => is_Some (designated_by arr p)) pairs ->
  exists out,
    foldlM pair_step pairs arr = Ok out
    /\ widths out = widths arr
    /\ (forall before p after pos,
          pairs = before ++ p :: after ->
          designated_by arr p = Some pos ->
          Forall (fun q => designated_by arr q <> Some pos) after ->
          slot out pos = Some (address_of p))
    /\ (forall pos,
          Forall (fun q => designated_by arr q <> Some pos) pairs ->
          slot out pos = slot arr pos).
Proof.
  revert arr. induction pairs as [|p0 pairs IH]; intros arr Hall.
  - exists arr. split; [done|]. split; [done|]. split; [|done].
    intros before p after pos Hsplit. by destruct before.
  - apply Forall_cons in Hall as [[pos0 Hp0] Hall].
    destruct (store_pin_designated arr _ _ (address_of p0) pos0 Hp0)
      as (cluster & Hk & Hi & Hstore).
    set (arr1 := <[pos0.1 := {| Pins := <[pos0.2 := address_of p0]> (Pins cluster) |}]> arr)
      in *.
    assert (widths arr1 = widths arr) as Hw.
    { apply (widths_insert arr _ cluster); [done|]. simpl. apply length_insert. }
    assert (forall q, designated_by arr1 q = designated_by arr q) as Hd.
    { intros q. by apply designated_widths. }
    destruct (IH arr1) as (out & Hrun & Hwout & Hlast & Hother).
    { eapply Forall_impl; [exact Hall|]. intros q Hq. simpl. by rewrite Hd. }
    exists out. split; [|split; [|split]].
    + change (foldlM pair_step (p0 :: pairs) arr)
        with (pair_step arr p0 ≫= foldlM pair_step pairs).
      assert (pair_step arr p0 = Ok arr1) as -> by exact Hstore.
      exact Hrun.
    + congruence.
    + intros before p after pos Hsplit Hp Hafter.
      destruct before as [|b before]; simpl in Hsplit.
      * injection Hsplit as <- <-.
        rewrite Hother.
        -- assert (pos = pos0) as -> by congruence.
           destruct pos0 as [k i]. by apply slot_insert_same.
        -- eapply Forall_impl; [exact Hafter|]. intros q Hq. simpl.
           by rewrite Hd.
      * injection Hsplit as <- ->.
        apply (Hlast before p after pos); [done|by rewrite Hd|].
        eapply Forall_impl; [exact Hafter|]. intros q Hq. simpl. by rewrite Hd.
    + intros pos Hnone. apply Forall_cons in Hnone as [Hne Hnone].
      rewrite Hother.
      * destruct pos0 as [k i]. apply (slot_insert_other arr k i cluster); [done|].
        congruence.
      * eapply Forall_impl; [exact Hnone|]. intros q Hq. simpl. by rewrite Hd.
Qed.

(** *** The address *)

Lemma channel_address_system (site_number : Z) (pin : string) :
  channel_address System_Pin site_number pin = pin.
Proof. done. Qed.

Lemma channel_address_other (pin_type : PinType) (site_number : Z) (pin : string) :
  pin_type <> System_Pin ->
  channel_address pin_type site_number pin
  = "Site" +:+ str site_number +:+ "/" +:+ pin.
Proof. by destruct pin_type. Qed.

(** *** The transposition *)

(** On rows of equal length the transposed rows hold the same entries,
    row and column swapped. *)
Lemma np_transpose_lookup (m t : list (list Z)) (i j : nat) (row : list Z) (x : Z) :
  np_transpose m = Ok t ->
  m !! j = Some row -> row !! i = Some x ->
  exists col, t !! i = Some col /\ col !! j = Some x.
Proof.
  unfold np_transpose. destruct m as [|row0 m']; [done|].
  destruct (forallb _ _) eqn:Hrect; [|done]. intros [= <-] Hj Hi.
  assert (length row = length row0) as Hlen.
  { rewrite forallb_forall in Hrect.
    apply Nat.eqb_eq, Hrect, list_elem_of_In, list_elem_of_lookup. eauto. }
  exists ((fun r => nth i r 0) <$> row0 :: m'). split.
  - rewrite list_lookup_fmap, lookup_seq_lt; [done|].
    rewrite <- Hlen. by eapply lookup_lt_Some.
  - rewrite list_lookup_fmap, Hj. simpl. f_equal.
    by apply nth_lookup_Some with (d := 0) in Hi.
Qed.

End Resolver.

(** C1. When every (site, pin) pair of the two loops has indices in range,
    the resolver raises nothing and leaves the widths of the session slots
    as they were; each pair's address stands at the position the pair's
    indices designate, unless a later pair designates the same position;
    the positions that no pair designates keep what they held; and the
    address of a pair is the bare pin name for a system pin and
    [Site{n}/{pin}], [n] the site number of the pair's row, for every other
    kind. *)
Theorem resolver_writes_site_prefixed_addresses
  (number_of_pins_per_channel : list Z)
  (channel_group_indices channel_indices group_rows index_rows : list (list Z))
  (site_numbers_out : list Z) (pin_names : list string) (pin_types : list PinType) :
  let pins_array := initial_pins_array number_of_pins_per_channel in
  let pairs :=
    site_pin_pairs group_rows index_rows site_numbers_out pin_names pin_types in
  np_transpose channel_group_indices = Ok group_rows ->
  np_transpose channel_indices = Ok index_rows ->
  Forall (fun p => is_Some (designated_by pins_array p)) pairs ->
  exists filled,
    fill_pins_array pins_array channel_group_indices channel_indices
      site_numbers_out pin_names pin_types = Ok filled
    /\ widths filled = widths pins_array
    /\ (forall before p after pos,
          pairs = before ++ p :: after ->
          designated_by pins_array p = Some pos ->
          Forall (fun q => designated_by pins_array q <> Some pos) after ->
          slot filled pos = Some (address_of p))
    /\ (forall pos,
          Forall (fun q => designated_by pins_array q <> Some pos) pairs ->
          slot filled pos = slot pins_array pos)
    /\ (forall p,
          (sp_type p = System_Pin -> address_of p = sp_pin p)
          /\ (sp_type p <> System_Pin ->
              address_of p = "Site" +:+ str (sp_site p) +:+ "/" +:+ sp_pin p)).
Proof.
  intros pins_array pairs Hg Hc Hall.
  destruct (pairs_pass pairs pins_array Hall) as (out & Hrun & Hw & Hlast & Hother).
  exists out. split; [|split; [done|split; [done|split; [done|]]]].
  - unfold fill_pins_array. rewrite Hg, Hc. simpl.
    by rewrite sites_loop_pairs.
  - intros p. unfold address_of. split.
    + intros ->. apply channel_address_system.
    + apply channel_address_other.
Qed.

Lemma resolver_writes_site_prefixed_addresses_witness :
  exists filled,
    fill_pins_array (initial_pins_array [2; 1])
      [[0; 0]; [1; 1]] [[0; 1]; [0; 0]] [0; 1] ["A"; "Clk"] [DUT_Pin; System_Pin]
    = Ok filled
    /\ slot filled (0, 0)%nat = Some "Site0/A"
    /\ slot filled (0, 1)%nat = Some "Site1/A"
    /\ slot filled (1, 0)%nat = Some "Clk".
Proof.
  destruct (resolver_writes_site_prefixed_addresses [2; 1]
    [[0; 0]; [1; 1]] [[0; 1]; [0; 0]] [[0; 1]; [0; 1]] [[0; 0]; [1; 0]]
    [0; 1] ["A"; "Clk"] [DUT_Pin; System_Pin] eq_refl eq_refl)
    as (filled & Hrun & _ & Hlast & _).
  { repeat (constructor; [by eexists|]). constructor. }
  exists filled. split; [exact Hrun|].
  pose (a0 := {| sp_site := 0; sp_group := 0; sp_index := 0; sp_pin := "A";
                 sp_type := DUT_Pin |}).
  pose (k0 := {| sp_site := 0; sp_group := 1; sp_index := 0; sp_pin := "Clk";
                 sp_type := System_Pin |}).
  pose (a1 := {| sp_site := 1; sp_group := 0; sp_index := 1; sp_pin := "A";
                 sp_type := DUT_Pin |}).
  pose (k1 := {| sp_site := 1; sp_group := 1; sp_index := 0; sp_pin := "Clk";
                 sp_type := System_Pin |}).
  split; [|split].
  - apply (Hlast [] a0 [k0; a1; k1] (0, 0)%nat); [reflexivity|reflexivity|].
    repeat (constructor; [intros Hq; vm_compute in Hq; discriminate|]). constructor.
  - apply (Hlast [a0; k0] a1 [k1] (0, 1)%nat); [reflexivity|reflexivity|].
    repeat (constructor; [intros Hq; vm_compute in Hq; discriminate|]). constructor.
  - apply (Hlast [a0; k0; a1] k1 [] (1, 0)%nat); [reflexivity|reflexivity|].
    constructor.
Defined.

(** With the pins given already classified, the resolver is the fill of the
    initial array followed by the join of every cluster. *)
Lemma channel_list_of_expanded_pins
  (expanded_pins_information : list ExpandedPinInformation)
  (site_numbers : list Z) (pin_query_context : nitsm.PinQueryContext)
  (tsm_context : nitsm.SemiconductorModuleContext) :
  expanded_pins_information <> [] ->
  let '(number_of_pins_per_channel, channel_group_indices, channel_indices) :=
    nitsm.get_channel_group_and_channel_index pin_query_context
      (nitsm._pins pin_query_context) in
  let site_numbers_out :=
    if bool_decide (length site_numbers = 0%nat)
    then nitsm.site_numbers tsm_context else site_numbers in
  _pin_query_context_to_channel_list expanded_pins_information site_numbers
    pin_query_context tsm_context
  = filled ← fill_pins_array (initial_pins_array number_of_pins_per_channel)
               channel_group_indices channel_indices site_numbers_out
               (Pin <$> expanded_pins_information)
               (Type_ <$> expanded_pins_information);
    mret (site_numbers_out, map (fun cluster => join "," (Pins cluster)) filled).
Proof.
  intros Hne. unfold _pin_query_context_to_channel_list.
  destruct (nitsm.get_channel_group_and_channel_index _ _) as [[n G] C].
  rewrite (bool_decide_eq_false_2 (length expanded_pins_information = 0%nat))
    by (by destruct expanded_pins_information).
  done.
Qed.

(** * Further properties *)

(** ** Array broadcasting, every outcome *)

(** A non-empty tuple broadcast to count zero is the empty list. *)
Lemma expand_tuple_to_zero {A : Type} (data : list A) :
  data <> [] -> _expand_to_requested_array_size (Tuple data) 0 = Ok [].
Proof.
  intros Hne. assert (length data <> 0%nat) as Hlen by (by destruct data).
  unfold _expand_to_requested_array_size, py_mod. simpl.
  rewrite (bool_decide_eq_false_2 (Z.of_nat (length data) = 0)) by lia.
  rewrite Z.lxor_0_l.
  rewrite (bool_decide_eq_false_2 (Z.of_nat (length data) = 0)) by lia.
  done.
Qed.

(** X1. Every outcome of broadcasting a tuple of length [L] to a target count
    [n]: a count above [L] is an [IndexError] (the tuple is never cycled),
    the empty tuple to count zero is the empty-input error, a non-empty
    tuple to count zero is the empty list, a tuple to its own length is the
    tuple, and a count strictly between zero and [L] is the
    uneven-distribution error. *)
Theorem expand_tuple_outcomes {A : Type} (data : list A) (n : nat) :
  _expand_to_requested_array_size (Tuple data) (Z.of_nat n)
  = if bool_decide (length data < n)%nat then Raise IndexError
    else if bool_decide (length data = 0%nat)
         then Raise (ValueError "Empty array input")
    else if bool_decide (n = 0%nat) then Ok []
    else if bool_decide (n = length data) then Ok data
    else Raise (ValueError "Input array does not evenly distribute into sessions").
Proof.
  case_bool_decide as Hlt; [apply expand_tuple_shorter_raises; lia|].
  case_bool_decide as Hlen.
  { destruct data; [|done]. simpl in Hlt. by replace n with 0%nat by lia. }
  case_bool_decide as Hn.
  { subst n. apply expand_tuple_to_zero. by destruct data. }
  case_bool_decide as Heq.
  { subst n. apply expand_tuple_same_length. by destruct data. }
  apply expand_tuple_longer_uneven. lia.
Qed.

(** X2. A value that is no tuple is never refused: for every target count,
    zero and negative counts included, the result is the list of
    [max(N, 0)] copies of it. *)
Theorem expand_scalar_never_refused {A : Type} (x : A) (N : Z) :
  _expand_to_requested_array_size (Scalar x) N = Ok (repeat x (Z.to_nat N))
  /\ length (repeat x (Z.to_nat N)) = Z.to_nat (Z.max N 0).
Proof.
  split; [|rewrite repeat_length; lia].
  unfold _expand_to_requested_array_size. simpl. rewrite Z.lxor_0_l.
  destruct (decide (N = 0)) as [->|Hne]; [done|].
  rewrite (bool_decide_eq_false_2 (N = 0)) by done.
  rewrite andb_false_r. unfold py_mod. simpl. by rewrite Z.mod_1_r.
Qed.

(** ** Pin classification, every request *)

Section Classification.

Implicit Types (dut sys names : list string) (pin : string).

Lemma list_index_None pin names :
  list_index String.eqb pin names = None <-> pin ∉ names.
Proof.
  induction names as [|y names IH]; simpl.
  - split; [intros _; apply not_elem_of_nil|done].
  - destruct (String.eqb y pin) eqn:E.
    + apply String.eqb_eq in E as ->. split; [done|].
      intros Hn. destruct Hn. by left.
    + apply String.eqb_neq in E. rewrite not_elem_of_cons.
      destruct (list_index String.eqb pin names); simpl.
      * split; [done|]. intros [_ Hn]. by apply IH in Hn.
      * split; [|done]. intros _. split; [done|]. by apply IH.
Qed.

Lemma list_index_app_l pin dut sys :
  pin ∈ dut ->
  exists k, list_index String.eqb pin (dut ++ sys) = Some k /\ (k < length dut)%nat.
Proof.
  induction dut as [|y dut IH]; [by intros ?%elem_of_nil|].
  intros Hin. simpl. destruct (String.eqb y pin) eqn:E.
  - exists 0%nat. split; [done|lia].
  - apply String.eqb_neq in E. apply elem_of_cons in Hin as [->|Hin]; [done|].
    destruct (IH Hin) as (k & -> & Hk). exists (S k). split; [done|lia].
Qed.

Lemma list_index_app_r pin dut sys :
  pin ∉ dut -> pin ∈ sys ->
  exists k, list_index String.eqb pin (dut ++ sys) = Some (length dut + k)%nat
            /\ (k < length sys)%nat.
Proof.
  intros Hd Hs. induction dut as [|y dut IH]; simpl.
  - destruct (list_index String.eqb pin sys) as [k|] eqn:E.
    + exists k. split; [done|]. clear Hd. revert k E.
      induction sys as [|z sys IHs]; intros k E; [done|]. simpl in E.
      destruct (String.eqb z pin) eqn:Ez.
      * injection E as <-. simpl. lia.
      * apply String.eqb_neq in Ez.
        apply elem_of_cons in Hs as [->|Hs]; [done|].
        destruct (list_index String.eqb pin sys) as [k'|]; [|done].
        injection E as <-. specialize (IHs Hs k' eq_refl). simpl. lia.
    + by apply list_index_None in E.
  - apply not_elem_of_cons in Hd as [Hne Hd].
    destruct (String.eqb y pin) eqn:E;
      [apply String.eqb_eq in E; by subst|].
    destruct (IH Hd) as (k & -> & Hk). by exists k.
Qed.

Lemma lookup_repeat {A : Type} (x : A) (n k : nat) :
  (k < n)%nat -> repeat x n !! k = Some x.
Proof.
  revert k. induction n as [|n IH]; intros [|k] Hk; simpl; try lia; [done|].
  apply IH. lia.
Qed.

(** One iteration: the name's kind is appended and the flag tells whether
    the name was missing from the roster. *)
Lemma identify_step_kind dut sys pin (filtered : list PinType) (flag : bool) :
  identify_step (dut ++ sys)
    (repeat DUT_Pin (length dut) ++ repeat System_Pin (length sys))
    (filtered, flag) pin
  = Ok (filtered ++ [pin_kind dut sys pin],
        bool_decide (pin_kind dut sys pin = Pin_Group)).
Proof.
  unfold identify_step, pin_kind.
  case_bool_decide as Hd.
  - destruct (list_index_app_l pin dut sys Hd) as (k & -> & Hk).
    rewrite (py_getitem_in_range _ _ DUT_Pin); [done|].
    rewrite lookup_app_l by (by rewrite repeat_length).
    by apply lookup_repeat.
  - case_bool_decide as Hs.
    + destruct (list_index_app_r pin dut sys Hd Hs) as (k & -> & Hk).
      rewrite (py_getitem_in_range _ _ System_Pin); [done|].
      rewrite lookup_app_r by (rewrite repeat_length; lia).
      rewrite repeat_length.
      replace (length dut + k - length dut)%nat with k by lia.
      by apply lookup_repeat.
    + assert (list_index String.eqb pin (dut ++ sys) = None) as ->; [|done].
      apply list_index_None. rewrite elem_of_app. tauto.
Qed.

Lemma identify_loop_kinds dut sys (pins : list string) (filtered : list PinType)
  (flag : bool) :
  foldlM (identify_step (dut ++ sys)
            (repeat DUT_Pin (length dut) ++ repeat System_Pin (length sys)))
    pins (filtered, flag)
  = Ok (filtered ++ (pin_kind dut sys <$> pins),
        from_option (fun pin => bool_decide (pin_kind dut sys pin = Pin_Group))
          flag (last pins)).
Proof.
  revert filtered flag. induction pins as [|pin pins IH]; intros filtered flag.
  - simpl. by rewrite app_nil_r.
  - change (foldlM ?f (pin :: pins) ?st) with (f st pin ≫= foldlM f pins).
    rewrite identify_step_kind. simpl. rewrite IH.
    rewrite <- app_assoc. simpl. do 2 f_equal.
    destruct pins as [|p pins']; [done|]. rewrite last_cons_cons.
    destruct (last (p :: pins')) eqn:E; [done|]. by apply last_None in E.
Qed.

Lemma identify_pin_types_kinds (tsm_context : nitsm.SemiconductorModuleContext)
  (pins : list string) :
  _identify_pin_types tsm_context pins
  = Ok (pin_kind (nitsm.get_pin_names tsm_context).1
          (nitsm.get_pin_names tsm_context).2 <$> pins,
        from_option
          (fun pin => bool_decide
             (pin_kind (nitsm.get_pin_names tsm_context).1
                (nitsm.get_pin_names tsm_context).2 pin = Pin_Group))
          false (last pins)).
Proof.
  unfold _identify_pin_types, _get_all_pin_names. simpl.
  destruct (nitsm.get_pin_names tsm_context) as [dut sys]. simpl.
  apply (identify_loop_kinds dut sys pins [] false).
Qed.

End Classification.

(** X3. Classifying a request never raises.  Every name gets the kind the
    roster gives it: DUT pin when the DUT pins list it, else system pin when
    the system pins list it, else pin group.  The flag returned with the
    kinds tells whether the last name of the request is a pin group, and is
    false for the empty request. *)
Theorem identify_pin_types_classifies
  (tsm_context : nitsm.SemiconductorModuleContext) (pins : list string) :
  _identify_pin_types tsm_context pins
  = Ok (pin_kind (nitsm.get_pin_names tsm_context).1
          (nitsm.get_pin_names tsm_context).2 <$> pins,
        from_option
          (fun pin => bool_decide
             (pin_kind (nitsm.get_pin_names tsm_context).1
                (nitsm.get_pin_names tsm_context).2 pin = Pin_Group))
          false (last pins)).
Proof. apply identify_pin_types_kinds. Qed.

(** X4. When the last name of a request is a pin of the roster, the request
    comes back as it is, every name with its kind: the pin-group provider is
    not asked, and a group named before the last name stays a group. *)
Theorem check_for_pin_group_known_last
  (tsm_context : nitsm.SemiconductorModuleContext) (pins : list string)
  (pin : string) :
  pin_kind (nitsm.get_pin_names tsm_context).1
    (nitsm.get_pin_names tsm_context).2 pin <> Pin_Group ->
  _check_for_pin_group tsm_context (pins ++ [pin])
  = Ok (pin_kind (nitsm.get_pin_names tsm_context).1
          (nitsm.get_pin_names tsm_context).2 <$> (pins ++ [pin]),
        pins ++ [pin]).
Proof.
  intros Hk. unfold _check_for_pin_group.
  rewrite identify_pin_types_kinds, last_snoc. simpl.
  by rewrite bool_decide_eq_false_2.
Qed.

Lemma check_for_pin_group_known_last_witness :
  _check_for_pin_group
    (scenario_context [0] (fun _ => Raise (ValueError "no such group"))
       (fun _ => (scenario_pin_query_context, [], [])))
    (["G1"; "A"] ++ ["Clk"])
  = Ok ([Pin_Group; DUT_Pin; System_Pin], ["G1"; "A"] ++ ["Clk"]).
Proof.
  apply (check_for_pin_group_known_last
           (scenario_context [0] (fun _ => Raise (ValueError "no such group"))
              (fun _ => (scenario_pin_query_context, [], [])))
           ["G1"; "A"] "Clk").
  vm_compute. discriminate.
Defined.

(** X5. When the last name of a request is missing from the roster, the
    whole request is handed to the pin-group provider.  A provider error
    leaves the function as it is; otherwise the names the provider returns
    come back, each with the kind the roster gives it.  The expansion is
    done once: a returned name that is itself missing from the roster is
    reported as a pin group. *)
Theorem check_for_pin_group_unknown_last
  (tsm_context : nitsm.SemiconductorModuleContext) (pins : list string)
  (pin : string) :
  pin_kind (nitsm.get_pin_names tsm_context).1
    (nitsm.get_pin_names tsm_context).2 pin = Pin_Group ->
  _check_for_pin_group tsm_context (pins ++ [pin])
  = match nitsm.get_pins_in_pin_group tsm_context (pins ++ [pin]) with
    | Ok members =>
        Ok (pin_kind (nitsm.get_pin_names tsm_context).1
              (nitsm.get_pin_names tsm_context).2 <$> members,
            members)
    | Raise e => Raise e
    end.
Proof.
  intros Hk. unfold _check_for_pin_group.
  rewrite identify_pin_types_kinds, last_snoc. simpl.
  rewrite bool_decide_eq_true_2 by done.
  destruct (nitsm.get_pins_in_pin_group tsm_context (pins ++ [pin])) as [members|e];
    simpl; [|done].
  by rewrite identify_pin_types_kinds.
Qed.

Lemma check_for_pin_group_unknown_last_witness :
  _check_for_pin_group
    (scenario_context [0] (fun _ => Ok ["A"; "B"; "G2"])
       (fun _ => (scenario_pin_query_context, [], [])))
    (["Clk"] ++ ["G1"])
  = Ok ([DUT_Pin; DUT_Pin; Pin_Group], ["A"; "B"; "G2"]).
Proof.
  apply (check_for_pin_group_unknown_last
           (scenario_context [0] (fun _ => Ok ["A"; "B"; "G2"])
              (fun _ => (scenario_pin_query_context, [], [])))
           ["Clk"] "G1").
  vm_compute. reflexivity.
Defined.

(** ** The loops over the aggregate *)

Section Loops.

Context `{NiScope}.

(** A loop whose state grows with every item handled: [inv k] holds of the
    state after [k] items. *)
Lemma issues_for_fold_counted {S A : Type} (body : S -> A -> Driver S)
  (calls : A -> list event) (inv : nat -> S -> Prop) (l : list A) (st : S)
  (k : nat) :
  (forall k st x, inv k st -> issues (body st x) (calls x) (inv (Datatypes.S k))) ->
  inv k st ->
  issues (for_fold body l st) (l ≫= calls) (inv (k + length l)%nat).
Proof.
  intros Hbody. revert st k. induction l as [|x l IH]; intros st k Hst; simpl.
  - apply issues_ret. by rewrite Nat.add_0_r.
  - eapply issues_bind; [by apply Hbody|]. intros st' Hst'.
    replace (k + Datatypes.S (length l))%nat with (Datatypes.S k + length l)%nat by lia.
    by apply IH.
Qed.

Lemma initiate_issues (tsm : TSMScope) :
  issues (initiate tsm) (expected_initiate_calls (ssc tsm)) (fun r => r = tsm).
Proof.
  unfold initiate, expected_initiate_calls.
  rewrite <- (bind_singleton_fmap (fun e => [(session e, niscope.initiate)])) by done.
  rewrite <- (app_nil_r (_ ≫= _)).
  eapply issues_bind.
  - apply issues_for_each. intros x. apply issues_invoke.
  - intros _ _. by apply issues_ret.
Qed.

Lemma clear_triggers_issues (tsm : TSMScope) :
  issues (tsm_ssc_scope_clear_triggers tsm)
    (expected_clear_trigger_calls (ssc tsm)) (fun r => r = tsm).
Proof.
  unfold tsm_ssc_scope_clear_triggers, expected_clear_trigger_calls.
  rewrite <- (app_nil_r (_ ≫= _)).
  eapply issues_bind.
  - apply issues_for_each. intros x.
    eapply (issues_bind _ _ [_] [_; _; _]); [apply issues_invoke|]. intros _ _.
    eapply (issues_bind _ _ [_] [_; _]); [apply issues_invoke|]. intros _ _.
    eapply (issues_bind _ _ [_] [_]); [apply issues_invoke|]. intros _ _.
    apply issues_invoke.
  - intros _ _. by apply issues_ret.
Qed.

Lemma fetch_clear_stats_issues (entries : list SSCScope) :
  issues (ssc_scope_fetch_clear_stats entries)
    (expected_clear_stats_calls entries) (fun r => r = entries).
Proof.
  unfold ssc_scope_fetch_clear_stats, expected_clear_stats_calls.
  rewrite <- (bind_singleton_fmap
    (fun e => [(session e,
                niscope.clear_waveform_measurement_stats (channels e)
                  niscope.ALL_MEASUREMENTS)])) by done.
  rewrite <- (app_nil_r (_ ≫= _)).
  eapply issues_bind.
  - apply issues_for_each. intros x. apply issues_invoke.
  - intros _ _. by apply issues_ret.
Qed.

Lemma fetch_arrays_issues (entries : list SSCScope)
  (scalar_measurements : list niscope.ScalarMeasurement) :
  issues (_ssc_scope_fetch_measurement_stats_arrays entries scalar_measurements)
    (expected_fetch_call <$> zip entries scalar_measurements)
    (fun stats => length stats = length (zip entries scalar_measurements)).
Proof.
  unfold _ssc_scope_fetch_measurement_stats_arrays.
  rewrite <- (bind_singleton_fmap (fun item => [expected_fetch_call item])) by done.
  apply (issues_for_fold_counted fetch_step _
           (fun k stats => length stats = k) _ [] 0%nat); [|done].
  intros k stats [e f] Hk. unfold fetch_step.
  rewrite <- (app_nil_r [_]).
  eapply issues_bind; [apply issues_invoke_fetch|]. intros stat _.
  apply issues_ret. rewrite length_app. simpl. lia.
Qed.

End Loops.

(** X6. [commit] issues no driver call, whatever the aggregate: the loop
    body reads [ssc.session.commit] without calling it, so the call log is
    left as it was and the aggregate is returned. *)
Theorem commit_issues_no_call (tsm : TSMScope) (log : list event) :
  commit tsm log = (Ok tsm, log).
Proof.
  unfold commit, for_each.
  assert (forall l, for_fold (fun _ scope_ssc =>
            bound_method (session scope_ssc) niscope.commit) l tt log
          = (Ok tt, log)) as Hloop.
  { induction l as [|x l IH]; [done|]. simpl.
    unfold mbind, Driver_bind. simpl. exact IH. }
  unfold mbind at 1, Driver_bind at 1. by rewrite Hloop.
Qed.

(** X7. [initiate] issues one initiate per entry, in aggregate order, and
    nothing else; a call that raises ends the run with the calls issued so
    far; when it returns it has initiated every entry and returns the
    aggregate, and it does return under a driver that never raises. *)
Theorem initiate_in_aggregate_order `{NiScope} (tsm : TSMScope) :
  issues (initiate tsm) (expected_initiate_calls (ssc tsm)) (fun r => r = tsm)
  /\ length (expected_initiate_calls (ssc tsm)) = length (ssc tsm)
  /\ forall i e, ssc tsm !! i = Some e ->
       expected_initiate_calls (ssc tsm) !! i = Some (session e, niscope.initiate).
Proof.
  split; [apply initiate_issues|]. unfold expected_initiate_calls. split.
  - by rewrite length_fmap.
  - intros i e Hi. by rewrite list_lookup_fmap, Hi.
Qed.

(** X8. Clearing the triggers issues, on every entry in aggregate order,
    abort, the immediate trigger, the exported start trigger terminal set
    to none, and commit, these four and in this order; an entry is finished
    before the next one is touched, and a call that raises ends the run. *)
Theorem clear_triggers_four_calls_per_entry `{NiScope} (tsm : TSMScope) :
  issues (tsm_ssc_scope_clear_triggers tsm)
    (expected_clear_trigger_calls (ssc tsm)) (fun r => r = tsm)
  /\ forall pre e post, ssc tsm = pre ++ e :: post ->
       expected_clear_trigger_calls (ssc tsm)
       = expected_clear_trigger_calls pre
         ++ [(session e, niscope.abort);
             (session e, niscope.configure_trigger_immediate);
             (session e,
               niscope.set_exported_start_trigger_output_terminal "VAL_NO_SOURCE");
             (session e, niscope.commit)]
         ++ expected_clear_trigger_calls post.
Proof.
  split; [apply clear_triggers_issues|].
  intros pre e post ->. unfold expected_clear_trigger_calls.
  by rewrite bind_app, bind_cons.
Qed.

(** X9. Clearing the statistics issues one clear of all measurements per
    entry, on the entry's own channels, in order, and returns the list of
    entries it was given. *)
Theorem fetch_clear_stats_one_clear_per_entry `{NiScope} (entries : list SSCScope) :
  issues (ssc_scope_fetch_clear_stats entries)
    (expected_clear_stats_calls entries) (fun r => r = entries)
  /\ forall i e, entries !! i = Some e ->
       expected_clear_stats_calls entries !! i
       = Some (session e,
               niscope.clear_waveform_measurement_stats (channels e)
                 niscope.ALL_MEASUREMENTS).
Proof.
  split; [apply fetch_clear_stats_issues|].
  intros i e Hi. unfold expected_clear_stats_calls. by rewrite list_lookup_fmap, Hi.
Qed.

(** ** The comma split, piece by piece *)

Section SplitCount.

Lemma count_commas_skip_spaces (s : string) :
  count_commas (skip_spaces s) = count_commas s.
Proof.
  induction s as [|c s IH]; [done|]. simpl.
  destruct (is_space c) eqn:Hs; [|done].
  destruct (is_comma c) eqn:Hc; [|done].
  apply comma_is_no_space in Hc. congruence.
Qed.

Lemma count_commas_match_separator (s rest : string) :
  match_separator s = Some rest -> count_commas s = S (count_commas rest).
Proof.
  unfold match_separator. intros Hm.
  rewrite <- (count_commas_skip_spaces s).
  destruct (skip_spaces s) as [|c s']; [done|].
  destruct (is_comma c) eqn:Hc; [|done]. injection Hm as <-.
  simpl. by rewrite Hc, count_commas_skip_spaces.
Qed.

Lemma match_separator_none_head (c : ascii) (s : string) :
  match_separator (String c s) = None -> is_comma c = false.
Proof.
  unfold match_separator. intros Hm.
  destruct (is_comma c) eqn:Hc; [|done].
  simpl in Hm. rewrite (comma_is_no_space _ Hc) in Hm. by rewrite Hc in Hm.
Qed.

Lemma count_commas_rev_app (s t : string) :
  count_commas (String.rev_app s t) = (count_commas s + count_commas t)%nat.
Proof.
  revert t. induction s as [|c s IH]; intros t; simpl; [done|].
  rewrite IH. simpl. lia.
Qed.

Lemma count_commas_rev (s : string) : count_commas (String.rev s) = count_commas s.
Proof. unfold String.rev. rewrite count_commas_rev_app. simpl. lia. Qed.

Lemma re_split_scan_length (s piece : string) :
  length (re_split_scan s piece) = S (count_commas s).
Proof.
  funelim (re_split_scan s piece).
  - simpl. rewrite H. by rewrite (count_commas_match_separator _ _ e).
  - done.
  - rewrite H. simpl. by rewrite (match_separator_none_head _ _ e).
Qed.

Lemma re_split_scan_pieces (s piece : string) :
  count_commas piece = 0%nat ->
  Forall (fun x => count_commas x = 0%nat) (re_split_scan s piece).
Proof.
  funelim (re_split_scan s piece); intros Hp.
  - constructor; [by rewrite count_commas_rev|]. by apply H.
  - constructor; [by rewrite count_commas_rev|done].
  - apply H. simpl. by rewrite (match_separator_none_head _ _ e).
Qed.

(** A text without comma is one piece, itself. *)
Lemma re_split_scan_comma_free (s piece : string) :
  count_commas s = 0%nat -> re_split_scan s piece = [String.rev piece +:+ s].
Proof.
  funelim (re_split_scan s piece); intros Hs.
  - rewrite (count_commas_match_separator _ _ e) in Hs. lia.
  - by rewrite append_empty_r.
  - rewrite H.
    + by rewrite rev_push.
    + simpl in Hs. lia.
Qed.

Lemma re_split_commas_comma_free (s : string) :
  count_commas s = 0%nat -> re_split_commas s = [s].
Proof. intros Hs. unfold re_split_commas. by rewrite re_split_scan_comma_free. Qed.

End SplitCount.

(** X10. The comma split of a text gives one piece more than the text has
    commas, and no piece holds a comma: every comma of the text is
    consumed by a separator, and every separator consumes one comma. *)
Theorem split_one_piece_more_than_commas (s : string) :
  length (re_split_commas s) = S (count_commas s)
  /\ Forall (fun piece => count_commas piece = 0%nat) (re_split_commas s).
Proof.
  split; [apply re_split_scan_length|by apply re_split_scan_pieces].
Qed.

(** ** Per-channel expansion, as a whole *)

Section ExpansionWhole.

Lemma expand_cons (e : SSCScope) (l : list SSCScope) :
  _expand_ssc_to_ssc_per_channel (e :: l)
  = (per_channel_entry e
       <$> zip (re_split_commas (channels e)) (re_split_commas (channel_list e)))
    ++ _expand_ssc_to_ssc_per_channel l.
Proof.
  change (e :: l) with ([e] ++ l). by rewrite (expand_app [e] l), expand_one.
Qed.

Lemma expand_one_length (e : SSCScope) :
  length (per_channel_entry e
            <$> zip (re_split_commas (channels e)) (re_split_commas (channel_list e)))
  = (S (count_commas (channels e)) `min` S (count_commas (channel_list e)))%nat.
Proof.
  rewrite length_fmap, length_zip. unfold re_split_commas.
  by rewrite !re_split_scan_length.
Qed.

Lemma expand_length (l : list SSCScope) :
  length (_expand_ssc_to_ssc_per_channel l)
  = sum_list ((fun e => (S (count_commas (channels e))
                         `min` S (count_commas (channel_list e)))%nat) <$> l).
Proof.
  induction l as [|e l IH]; [done|].
  rewrite expand_cons, length_app, expand_one_length, IH. done.
Qed.

Lemma expand_length_ge (l : list SSCScope) :
  (length l <= length (_expand_ssc_to_ssc_per_channel l))%nat.
Proof.
  induction l as [|e l IH]; [done|].
  rewrite expand_cons, length_app, expand_one_length.
  change (length (e :: l)) with (S (length l)). lia.
Qed.

Lemma expand_single_channel (l : list SSCScope) :
  Forall single_channel l -> _expand_ssc_to_ssc_per_channel l = l.
Proof.
  induction 1 as [|e l [Hc Hl] _ IH]; [done|].
  rewrite expand_cons, IH, !re_split_commas_comma_free by done.
  by destruct e.
Qed.

Lemma expand_gives_single_channel (l : list SSCScope) :
  Forall single_channel (_expand_ssc_to_ssc_per_channel l).
Proof.
  induction l as [|e l IH]; [constructor|].
  rewrite expand_cons. apply Forall_app. split; [|done].
  apply Forall_fmap, Forall_forall. intros [ch pin] Hin. split; simpl.
  - apply elem_of_zip_l in Hin. revert ch Hin. apply Forall_forall.
    by apply re_split_scan_pieces.
  - apply elem_of_zip_r in Hin. revert pin Hin. apply Forall_forall.
    by apply re_split_scan_pieces.
Qed.

End ExpansionWhole.

(** X11. Per-channel expansion is idempotent: the entries it produces hold
    one channel and one pin each, so expanding them again changes nothing. *)
Theorem expand_idempotent (l : list SSCScope) :
  _expand_ssc_to_ssc_per_channel (_expand_ssc_to_ssc_per_channel l)
  = _expand_ssc_to_ssc_per_channel l.
Proof. apply expand_single_channel, expand_gives_single_channel. Qed.

(** X12. Per-channel expansion drops no entry: an entry with [c] commas in
    its channels and [p] commas in its channel list yields
    [min(c + 1, p + 1)] per-channel entries, at least one, so the expansion
    is at least as long as the aggregate; an entry whose two strings are
    empty yields one per-channel entry with empty strings. *)
Theorem expand_counts_channels (l : list SSCScope) :
  length (_expand_ssc_to_ssc_per_channel l)
  = sum_list ((fun e => (S (count_commas (channels e))
                         `min` S (count_commas (channel_list e)))%nat) <$> l)
  /\ (length l <= length (_expand_ssc_to_ssc_per_channel l))%nat
  /\ forall s,
       _expand_ssc_to_ssc_per_channel
         [ {| session := s; channels := ""; channel_list := "" |} ]
       = [ {| session := s; channels := ""; channel_list := "" |} ].
Proof.
  split; [apply expand_length|]. split; [apply expand_length_ge|].
  intros s. reflexivity.
Qed.

(** ** Statistics per channel *)

Section PerChannelFetch.

Context `{NiScope}.

Lemma zip_repeat {A B : Type} (l : list A) (y : B) :
  zip l (repeat y (length l)) = (fun x => (x, y)) <$> l.
Proof. induction l as [|x l IH]; [done|]. simpl. by rewrite IH. Qed.

(** Once the measurement functions are broadcast, the fetches follow. *)
Lemma fetch_per_channel_issues (tsm : TSMScope)
  (scalar_measurement : py_arg niscope.ScalarMeasurement)
  (scalar_measurements : list niscope.ScalarMeasurement) :
  _expand_to_requested_array_size scalar_measurement
    (Z.of_nat (length (_expand_ssc_to_ssc_per_channel (ssc tsm))))
  = Ok scalar_measurements ->
  issues (tsm_ssc_scope_fetch_meas_stats_per_channel tsm scalar_measurement)
    (expected_fetch_call
       <$> zip (_expand_ssc_to_ssc_per_channel (ssc tsm)) scalar_measurements)
    (fun r => r.1 = tsm
              /\ length r.2
                 = length (zip (_expand_ssc_to_ssc_per_channel (ssc tsm))
                             scalar_measurements)).
Proof.
  intros Hexp. unfold tsm_ssc_scope_fetch_meas_stats_per_channel.
  rewrite Hexp. change (lift (Ok scalar_measurements)) with
    (mret scalar_measurements : Driver _).
  change (expected_fetch_call <$> ?l) with ([] ++ (expected_fetch_call <$> l)).
  eapply issues_bind; [by apply (issues_ret _ (fun x => x = scalar_measurements))|].
  intros ? ->. rewrite <- (app_nil_r (_ <$> _)).
  eapply issues_bind; [apply fetch_arrays_issues|].
  intros stats Hlen. by apply issues_ret.
Qed.

(** A broadcast that raises ends the run before any driver call. *)
Lemma fetch_per_channel_refused (tsm : TSMScope)
  (scalar_measurement : py_arg niscope.ScalarMeasurement) (e : exn)
  (log : list event) :
  _expand_to_requested_array_size scalar_measurement
    (Z.of_nat (length (_expand_ssc_to_ssc_per_channel (ssc tsm))))
  = Raise e ->
  tsm_ssc_scope_fetch_meas_stats_per_channel tsm scalar_measurement log
  = (Raise e, log).
Proof.
  intros Hexp. unfold tsm_ssc_scope_fetch_meas_stats_per_channel.
  by rewrite Hexp.
Qed.

End PerChannelFetch.

(** X13. With one measurement function, the per-channel statistics fetch
    issues one fetch per per-channel entry of the expanded aggregate, in
    order, each on the entry's session and on the entry's single channel,
    with that function; when it returns, it returns the aggregate and one
    statistics list per per-channel entry. *)
Theorem fetch_per_channel_one_function `{NiScope} (tsm : TSMScope)
  (f : niscope.ScalarMeasurement) :
  issues (tsm_ssc_scope_fetch_meas_stats_per_channel tsm (Scalar f))
    ((fun e => (session e, niscope.fetch_measurement_stats (channels e) f))
       <$> _expand_ssc_to_ssc_per_channel (ssc tsm))
    (fun r => r.1 = tsm
              /\ length r.2 = length (_expand_ssc_to_ssc_per_channel (ssc tsm)))
  /\ Forall (fun e => count_commas (channels e) = 0%nat)
       (_expand_ssc_to_ssc_per_channel (ssc tsm)).
Proof.
  split.
  - pose proof (fetch_per_channel_issues tsm (Scalar f)
      (repeat f (length (_expand_ssc_to_ssc_per_channel (ssc tsm))))) as Hrun.
    rewrite zip_repeat, <- list_fmap_compose, length_fmap in Hrun.
    apply Hrun. rewrite expand_scalar by lia. by rewrite Nat2Z.id.
  - eapply Forall_impl; [apply expand_gives_single_channel|].
    by intros e [Hc _].
Qed.

(** X14. With a tuple of measurement functions whose length is not the
    number of per-channel entries of a non-empty aggregate, the per-channel
    statistics fetch raises before any driver call: [IndexError] when the
    tuple is shorter, the uneven-distribution error when it is longer. *)
Theorem fetch_per_channel_tuple_mismatch `{NiScope} (tsm : TSMScope)
  (fs : list niscope.ScalarMeasurement) (log : list event) :
  ssc tsm <> [] ->
  length fs <> length (_expand_ssc_to_ssc_per_channel (ssc tsm)) ->
  tsm_ssc_scope_fetch_meas_stats_per_channel tsm (Tuple fs) log
  = (Raise (if bool_decide
                 (length fs < length (_expand_ssc_to_ssc_per_channel (ssc tsm)))%nat
            then IndexError
            else ValueError "Input array does not evenly distribute into sessions"),
     log).
Proof.
  intros Hne Hlen. apply fetch_per_channel_refused.
  pose proof (expand_length_ge (ssc tsm)) as Hge.
  assert (length (ssc tsm) <> 0%nat) by (by destruct (ssc tsm)).
  case_bool_decide.
  - apply expand_tuple_shorter_raises. lia.
  - apply expand_tuple_longer_uneven. lia.
Qed.

Lemma fetch_per_channel_tuple_mismatch_witness :
  @tsm_ssc_scope_fetch_meas_stats_per_channel quiet_driver
    (scenario_aggregate
       [ {| session := scenario_session 0; channels := "0,1";
            channel_list := "Site0/A,Site0/B" |} ])
    (Tuple [5]) []
  = (Raise IndexError, []).
Proof.
  apply (@fetch_per_channel_tuple_mismatch quiet_driver
    (scenario_aggregate
       [ {| session := scenario_session 0; channels := "0,1";
            channel_list := "Site0/A,Site0/B" |} ])
    [5] []).
  - discriminate.
  - vm_compute. discriminate.
Defined.

(** X15. With a tuple of as many measurement functions as the expanded
    aggregate has per-channel entries, at least one, the per-channel
    statistics fetch pairs them position by position: the fetch on
    per-channel entry [i] uses function [i]. *)
Theorem fetch_per_channel_tuple_match `{NiScope} (tsm : TSMScope)
  (fs : list niscope.ScalarMeasurement) :
  fs <> [] ->
  length fs = length (_expand_ssc_to_ssc_per_channel (ssc tsm)) ->
  issues (tsm_ssc_scope_fetch_meas_stats_per_channel tsm (Tuple fs))
    (expected_fetch_call <$> zip (_expand_ssc_to_ssc_per_channel (ssc tsm)) fs)
    (fun r => r.1 = tsm /\ length r.2 = length fs)
  /\ forall i e f,
       _expand_ssc_to_ssc_per_channel (ssc tsm) !! i = Some e ->
       fs !! i = Some f ->
       (expected_fetch_call <$> zip (_expand_ssc_to_ssc_per_channel (ssc tsm)) fs) !! i
       = Some (session e, niscope.fetch_measurement_stats (channels e) f).
Proof.
  intros Hne Hlen. split.
  - pose proof (fetch_per_channel_issues tsm (Tuple fs) fs) as Hrun.
    rewrite length_zip, <- Hlen, Nat.min_id in Hrun.
    apply Hrun. by apply expand_tuple_same_length.
  - intros i e f He Hf.
    rewrite list_lookup_fmap, lookup_zip_with, He. simpl. by rewrite Hf.
Qed.

Lemma fetch_per_channel_tuple_match_witness :
  @issues quiet_driver _
    (@tsm_ssc_scope_fetch_meas_stats_per_channel quiet_driver
       (scenario_aggregate
          [ {| session := scenario_session 0; channels := "0,1";
               channel_list := "Site0/A,Site0/B" |} ])
       (Tuple [5; 6]))
    [(scenario_session 0, niscope.fetch_measurement_stats "0" 5);
     (scenario_session 0, niscope.fetch_measurement_stats "1" 6)]
    (fun r => r.1 = scenario_aggregate
                      [ {| session := scenario_session 0; channels := "0,1";
                           channel_list := "Site0/A,Site0/B" |} ]
              /\ length r.2 = 2%nat).
Proof.
  refine (proj1 (@fetch_per_channel_tuple_match quiet_driver
    (scenario_aggregate
       [ {| session := scenario_session 0; channels := "0,1";
            channel_list := "Site0/A,Site0/B" |} ])
    [5; 6] _ _)).
  - discriminate.
  - reflexivity.
Defined.

(** ** The resolver, failure and shape *)

Section ResolverEdges.

Implicit Types (arr : list PinsCluster) (p : site_pin).

Lemma store_pin_undesignated arr (g c : Z) (value : string) :
  designated arr g c = None -> store_pin arr g c value = Raise IndexError.
Proof.
  unfold designated, store_pin, py_getitem, py_setitem.
  destruct (py_index (length arr) g) as [k|]; [|done]. simpl.
  destruct (arr !! k) as [cluster|]; [|done]. simpl.
  by destruct (py_index (length (Pins cluster)) c).
Qed.

(** A store that returns has written inside the array as it was. *)
Lemma store_pin_ok arr arr' (g c : Z) (value : string) :
  store_pin arr g c value = Ok arr' ->
  is_Some (designated arr g c) /\ widths arr' = widths arr.
Proof.
  intros Hrun. destruct (designated arr g c) as [pos|] eqn:Hd.
  - split; [done|].
    destruct (store_pin_designated arr g c value pos Hd) as (cluster & Hk & Hi & Hs).
    rewrite Hs in Hrun. injection Hrun as <-.
    apply (widths_insert arr _ cluster); [done|]. simpl. apply length_insert.
  - by rewrite store_pin_undesignated in Hrun.
Qed.

Lemma pairs_ok_widths (pairs : list site_pin) arr out :
  foldlM pair_step pairs arr = Ok out -> widths out = widths arr.
Proof.
  revert arr. induction pairs as [|p pairs IH]; intros arr; simpl.
  - by intros [= <-].
  - destruct (pair_step arr p) as [arr1|e] eqn:Hp; simpl; [|done].
    intros Hrun. apply store_pin_ok in Hp as [_ Hw].
    rewrite (IH _ Hrun). exact Hw.
Qed.

Lemma pairs_fail (pairs : list site_pin) arr :
  Exists (fun p => designated_by arr p = None) pairs ->
  foldlM pair_step pairs arr = Raise IndexError.
Proof.
  revert arr. induction pairs as [|p pairs IH]; intros arr Hex.
  - by apply Exists_nil in Hex.
  - change (foldlM pair_step (p :: pairs) arr)
      with (pair_step arr p ≫= foldlM pair_step pairs).
    destruct (designated_by arr p) as [pos|] eqn:Hd.
    + apply Exists_cons in Hex as [Hp|Hex]; [congruence|].
      destruct (pair_step arr p) as [arr1|e] eqn:Hp.
      * simpl. apply IH. apply store_pin_ok in Hp as [_ Hw].
        eapply Exists_impl; [exact Hex|]. intros q Hq. simpl in *.
        unfold designated_by in *. by rewrite (designated_widths arr1 arr).
      * destruct (store_pin_designated arr _ _ (address_of p) pos Hd)
          as (cluster & _ & _ & Hs).
        unfold pair_step in Hp. congruence.
    + unfold pair_step. by rewrite store_pin_undesignated.
Qed.

Lemma fill_ok_widths arr (channel_group_indices channel_indices : list (list Z))
  (site_numbers_out : list Z) (pin_names : list string) (pin_types : list PinType)
  (filled : list PinsCluster) :
  fill_pins_array arr channel_group_indices channel_indices site_numbers_out
    pin_names pin_types = Ok filled ->
  widths filled = widths arr.
Proof.
  unfold fill_pins_array.
  destruct (np_transpose channel_group_indices) as [group_rows|]; simpl; [|done].
  destruct (np_transpose channel_indices) as [index_rows|]; simpl; [|done].
  rewrite sites_loop_pairs. apply pairs_ok_widths.
Qed.

Lemma widths_length arr arr' : widths arr = widths arr' -> length arr = length arr'.
Proof.
  intros Hw. apply (f_equal length) in Hw. unfold widths in Hw.
  by rewrite !length_fmap in Hw.
Qed.

(** What the resolver returns: the site list and one string per session. *)
Lemma channel_list_shape
  (expanded_pins_information : list ExpandedPinInformation)
  (site_numbers : list Z) (pin_query_context : nitsm.PinQueryContext)
  (tsm_context : nitsm.SemiconductorModuleContext)
  (site_numbers_out : list Z) (channel_list_per_session : list string) :
  _pin_query_context_to_channel_list expanded_pins_information site_numbers
    pin_query_context tsm_context
  = Ok (site_numbers_out, channel_list_per_session) ->
  site_numbers_out
  = (if bool_decide (site_numbers = [])
     then nitsm.site_numbers tsm_context else site_numbers)
  /\ length channel_list_per_session
     = length (nitsm.get_channel_group_and_channel_index pin_query_context
                 (nitsm._pins pin_query_context)).1.1.
Proof.
  unfold _pin_query_context_to_channel_list.
  destruct (nitsm.get_channel_group_and_channel_index _ _) as [[n G] C]. simpl.
  match goal with
  | |- context [mbind _ ?m] => destruct m as [[types names]|e]
  end; simpl; [|done].
  destruct (fill_pins_array _ _ _ _ _ _) as [filled|e] eqn:Hfill; simpl; [|done].
  intros [= <- <-]. split.
  - by destruct site_numbers.
  - apply fill_ok_widths, widths_length in Hfill.
    by rewrite length_map, Hfill, length_fmap.
Qed.

End ResolverEdges.

(** X16. When some (site, pin) pair of the two loops has a channel-group
    index or a channel index outside its session slots, the resolver raises
    [IndexError]: together with the in-range case, the loops return exactly
    when every pair is in range. *)
Theorem resolver_out_of_range_raises
  (number_of_pins_per_channel : list Z)
  (channel_group_indices channel_indices group_rows index_rows : list (list Z))
  (site_numbers_out : list Z) (pin_names : list string) (pin_types : list PinType) :
  let pins_array := initial_pins_array number_of_pins_per_channel in
  let pairs :=
    site_pin_pairs group_rows index_rows site_numbers_out pin_names pin_types in
  np_transpose channel_group_indices = Ok group_rows ->
  np_transpose channel_indices = Ok index_rows ->
  Exists (fun p => designated_by pins_array p = None) pairs ->
  fill_pins_array pins_array channel_group_indices channel_indices
    site_numbers_out pin_names pin_types = Raise IndexError.
Proof.
  intros pins_array pairs Hg Hc Hex.
  unfold fill_pins_array. rewrite Hg, Hc. simpl.
  rewrite sites_loop_pairs. by apply pairs_fail.
Qed.

Lemma resolver_out_of_range_raises_witness :
  fill_pins_array (initial_pins_array [1]) [[0]] [[1]] [0] ["A"] [DUT_Pin]
  = Raise IndexError.
Proof.
  apply (resolver_out_of_range_raises [1] [[0]] [[1]] [[0]] [[1]] [0] ["A"] [DUT_Pin]
           eq_refl eq_refl).
  apply Exists_cons_hd. reflexivity.
Defined.

(** X17. A negative channel-group index or channel index is not refused:
    it counts from the end, as Python subscripts do, so [-1] addresses the
    last session and the last slot of a session.  The store at group index
    [-(k+1)] and channel index [-(j+1)] writes the cluster that has [k]
    clusters after it, at the slot that has [j] slots after it. *)
Theorem store_pin_negative_index_from_end (pre post : list PinsCluster)
  (ps qs : list string) (x value : string) :
  store_pin (pre ++ {| Pins := ps ++ x :: qs |} :: post)
    (- Z.of_nat (S (length post))) (- Z.of_nat (S (length qs))) value
  = Ok (pre ++ {| Pins := ps ++ value :: qs |} :: post).
Proof.
  assert (forall {A : Type} (l1 l2 : list A) (y : A),
            py_index (length (l1 ++ y :: l2)) (- Z.of_nat (S (length l2)))
            = Some (length l1)) as Hidx.
  { intros A l1 l2 y. unfold py_index. rewrite length_app. simpl length.
    rewrite bool_decide_eq_false_2 by lia.
    rewrite bool_decide_eq_true_2 by lia. f_equal. lia. }
  unfold store_pin, py_getitem, py_setitem. rewrite Hidx. simpl.
  rewrite list_lookup_middle by done. simpl. rewrite Hidx.
  rewrite insert_app_r_alt, Nat.sub_diag by done. simpl.
  rewrite insert_app_r_alt, Nat.sub_diag by done. done.
Qed.

(** X18. When the resolver returns, the site list it returns is the one it
    was given, or the context's when the given one is empty, and it returns
    one channel-list string per session slot of the pin query. *)
Theorem channel_list_one_string_per_session
  (expanded_pins_information : list ExpandedPinInformation)
  (site_numbers : list Z) (pin_query_context : nitsm.PinQueryContext)
  (tsm_context : nitsm.SemiconductorModuleContext)
  (site_numbers_out : list Z) (channel_list_per_session : list string) :
  _pin_query_context_to_channel_list expanded_pins_information site_numbers
    pin_query_context tsm_context
  = Ok (site_numbers_out, channel_list_per_session) ->
  site_numbers_out
  = (if bool_decide (site_numbers = [])
     then nitsm.site_numbers tsm_context else site_numbers)
  /\ length channel_list_per_session
     = length (nitsm.get_channel_group_and_channel_index pin_query_context
                 (nitsm._pins pin_query_context)).1.1.
Proof. apply channel_list_shape. Qed.

Lemma channel_list_one_string_per_session_witness :
  _pin_query_context_to_channel_list [] [] resolver_pin_query_context resolver_context
  = Ok ([0; 1], ["Site0/A,Site1/A"; "Clk"])
  /\ [0; 1] = nitsm.site_numbers resolver_context
  /\ length ["Site0/A,Site1/A"; "Clk"] = 2%nat.
Proof.
  split; [reflexivity|].
  exact (channel_list_one_string_per_session [] [] resolver_pin_query_context
           resolver_context [0; 1] ["Site0/A,Site1/A"; "Clk"] eq_refl).
Defined.

(** X19. When the pin-to-session mapping returns, the aggregate holds the
    context's pin query context and the site list given, or the context's
    when the given one is empty; it has one entry per session for which
    the context gave a session, a channel descriptor and session slots,
    the shortest of the three deciding; and entry [i] holds session [i] and
    channel descriptor [i] of the context's answer. *)
Theorem pins_to_sessions_shape (tsm_context : nitsm.SemiconductorModuleContext)
  (pins : list string) (site_numbers_in : list Z) (tsm : TSMScope) :
  tsm_ssc_scope_pins_to_sessions tsm_context pins site_numbers_in = Ok tsm ->
  let answer := nitsm.pins_to_niscope_sessions tsm_context pins in
  pin_query_context tsm = answer.1.1
  /\ site_numbers tsm
     = (if bool_decide (site_numbers_in = [])
        then nitsm.site_numbers tsm_context else site_numbers_in)
  /\ length (ssc tsm)
     = ((length answer.1.2 `min` length answer.2)
        `min` length (nitsm.get_channel_group_and_channel_index answer.1.1
                        (nitsm._pins answer.1.1)).1.1)%nat
  /\ forall i e, ssc tsm !! i = Some e ->
       answer.1.2 !! i = Some (session e) /\ answer.2 !! i = Some (channels e).
Proof.
  unfold tsm_ssc_scope_pins_to_sessions.
  destruct (nitsm.pins_to_niscope_sessions tsm_context pins)
    as [[pq sessions] chans]. simpl.
  destruct (_pin_query_context_to_channel_list [] site_numbers_in pq tsm_context)
    as [[sites_out lists]|e] eqn:Hrun; simpl; [|done].
  apply channel_list_shape in Hrun as [-> Hlen].
  intros [= <-]. simpl. split; [done|]. split; [done|]. split.
  - by rewrite length_fmap, !length_zip, Hlen.
  - intros i e Hi. rewrite list_lookup_fmap in Hi.
    destruct (zip (zip sessions chans) lists !! i) as [[[s c] l]|] eqn:Hz;
      [|done].
    injection Hi as <-. simpl.
    apply lookup_zip_with_Some in Hz as ([s' c'] & l' & [= <- <- <-] & Hsc & _).
    apply lookup_zip_with_Some in Hsc as (s' & c' & [= <- <-] & Hs & Hc).
    done.
Qed.

Lemma pins_to_sessions_shape_witness :
  exists tsm,
    tsm_ssc_scope_pins_to_sessions resolver_context ["A"; "Clk"] [] = Ok tsm
    /\ site_numbers tsm = [0; 1]
    /\ length (ssc tsm) = 2%nat.
Proof.
  eexists. split; [reflexivity|].
  destruct (pins_to_sessions_shape resolver_context ["A"; "Clk"] [] _ eq_refl)
    as (_ & Hsites & Hlen & _).
  split; [exact Hsites|exact Hlen].
Defined.

(** ** Channel lists back to pins and sites *)

Section Decoding.

(** The loop over the indices decodes the channels one by one: with [seen]
    handled and [todo] ahead, the pins and the sites of [todo] are still
    the initial ones. *)
Lemma pins_loop (seen todo pdone : list string) (sdone : list Z) :
  length pdone = length seen -> length sdone = length seen ->
  for_opt (pins_step (seen ++ todo)) (seq (length seen) (length todo))
    (pdone ++ todo, sdone ++ repeat (-1) (length todo))
  = rs ← mapM decode_channel todo; Some (pdone ++ rs.*1, sdone ++ rs.*2).
Proof.
  revert seen pdone sdone.
  induction todo as [|ch todo IH]; intros seen pdone sdone Hp Hs; [done|].
  change (seq (length seen) (length (ch :: todo)))
    with (length seen :: seq (S (length seen)) (length todo)).
  change (for_opt ?f (?i :: ?l) ?st) with (f st i ≫= for_opt f l).
  change (mapM decode_channel (ch :: todo))
    with (r ← decode_channel ch; k ← mapM decode_channel todo; Some (r :: k)).
  assert (forall pin site,
            for_opt (pins_step (seen ++ ch :: todo))
              (seq (S (length seen)) (length todo))
              (pdone ++ pin :: todo, sdone ++ site :: repeat (-1) (length todo))
            = k ← mapM decode_channel todo;
              Some (pdone ++ ((pin, site) :: k).*1,
                    sdone ++ ((pin, site) :: k).*2)) as Hnext.
  { intros pin site.
    specialize (IH (seen ++ [ch]) (pdone ++ [pin]) (sdone ++ [site])).
    rewrite !length_app, <- !app_assoc in IH. simpl in IH.
    rewrite !Nat.add_1_r in IH. rewrite IH by lia.
    destruct (mapM decode_channel todo) as [k|]; simpl; [|done].
    by rewrite <- !app_assoc. }
  assert (pins_step (seen ++ ch :: todo)
            (pdone ++ ch :: todo, sdone ++ repeat (-1) (length (ch :: todo)))
            (length seen)
          = r ← decode_channel ch;
            Some (pdone ++ r.1 :: todo, sdone ++ r.2 :: repeat (-1) (length todo)))
    as ->.
  { unfold pins_step, decode_channel.
    rewrite list_lookup_middle by done. simpl.
    destruct (re_split_slashes ch) as [|site [|pin [|extra rest]]]; simpl;
      try done.
    destruct (match_site site) as [digits|]; simpl; [|done].
    rewrite <- Hp at 1. rewrite <- Hs at 1.
    by rewrite !insert_app_r_alt, !Nat.sub_diag by done. }
  destruct (decode_channel ch) as [[pin site]|]; simpl; [|done].
  rewrite (Hnext pin site). by destruct (mapM decode_channel todo).
Qed.

(** The function, channel by channel. *)
Lemma channel_list_to_pins_decode (channel_list : string) :
  _channel_list_to_pins channel_list
  = rs ← mapM decode_channel (re_split_commas channel_list);
    Some (re_split_commas channel_list, rs.*1, rs.*2).
Proof.
  unfold _channel_list_to_pins.
  pose proof (pins_loop [] (re_split_commas channel_list) [] [] eq_refl eq_refl)
    as Hloop.
  simpl in Hloop. rewrite Hloop.
  by destruct (mapM decode_channel (re_split_commas channel_list)).
Qed.

End Decoding.

(** X20. When decoding a channel list returns, it returns the comma-split
    channels and, position by position, a pin and a site for every one of
    them: the three lists have the same length, and channel [i] decodes to
    pin [i] and site [i] independently of the other channels. *)
Theorem channel_list_to_pins_positions (channel_list : string)
  (channels pins : list string) (sites : list Z) :
  _channel_list_to_pins channel_list = Some (channels, pins, sites) ->
  channels = re_split_commas channel_list
  /\ length pins = length channels
  /\ length sites = length channels
  /\ forall i channel, channels !! i = Some channel ->
       exists pin site,
         pins !! i = Some pin /\ sites !! i = Some site
         /\ decode_channel channel = Some (pin, site).
Proof.
  rewrite channel_list_to_pins_decode.
  destruct (mapM decode_channel (re_split_commas channel_list)) as [rs|] eqn:Hrs;
    simpl; [|done].
  intros [= <- <- <-]. apply mapM_Some in Hrs.
  pose proof (Forall2_length _ _ _ Hrs) as Hlen.
  split; [done|]. rewrite !length_fmap. split; [done|]. split; [done|].
  intros i channel Hi.
  destruct (Forall2_lookup_l _ _ _ _ _ Hrs Hi) as ([pin site] & Hr & Hdec).
  exists pin, site. rewrite !list_lookup_fmap, Hr. done.
Qed.

Lemma channel_list_to_pins_positions_witness :
  _channel_list_to_pins "Site0/A, Site12/B,Clk"
  = Some (["Site0/A"; "Site12/B"; "Clk"], ["A"; "B"; "Clk"], [0; 12; -1])
  /\ length ["A"; "B"; "Clk"] = length ["Site0/A"; "Site12/B"; "Clk"].
Proof.
  split; [reflexivity|].
  exact (proj1 (proj2 (channel_list_to_pins_positions "Site0/A, Site12/B,Clk"
    ["Site0/A"; "Site12/B"; "Clk"] ["A"; "B"; "Clk"] [0; 12; -1] eq_refl))).
Defined.

(** X21. A channel that does not split at a slash or backslash into
    exactly two pieces is taken as a pin name at site [-1], whatever it
    holds: when no channel of the list splits in two, decoding returns the
    channels themselves as pins and [-1] for every site. *)
Theorem channel_list_to_pins_unprefixed (channel_list : string) :
  Forall (fun channel => length (re_split_slashes channel) <> 2%nat)
    (re_split_commas channel_list) ->
  _channel_list_to_pins channel_list
  = Some (re_split_commas channel_list, re_split_commas channel_list,
          repeat (-1) (length (re_split_commas channel_list))).
Proof.
  intros Hall. rewrite channel_list_to_pins_decode.
  assert (mapM decode_channel (re_split_commas channel_list)
          = Some ((fun channel => (channel, -1)) <$> re_split_commas channel_list))
    as ->.
  { apply mapM_Some.
    induction Hall as [|ch l Hch _ IH]; [constructor|].
    rewrite fmap_cons. constructor; [|exact IH].
    unfold decode_channel.
    by destruct (re_split_slashes ch) as [|site [|pin [|extra rest]]]. }
  simpl. clear Hall. f_equal. f_equal; [f_equal|].
  - induction (re_split_commas channel_list) as [|ch l IH]; [done|].
    rewrite !fmap_cons. simpl. f_equal. exact IH.
  - induction (re_split_commas channel_list) as [|ch l IH]; [done|].
    rewrite !fmap_cons. simpl. f_equal. exact IH.
Qed.

Lemma channel_list_to_pins_unprefixed_witness :
  _channel_list_to_pins "Clk,Site0/A/x,"
  = Some (["Clk"; "Site0/A/x"; ""], ["Clk"; "Site0/A/x"; ""], [-1; -1; -1]).
Proof.
  apply (channel_list_to_pins_unprefixed "Clk,Site0/A/x,").
  let l := eval vm_compute in (re_split_commas "Clk,Site0/A/x,") in
  change (re_split_commas "Clk,Site0/A/x,") with l.
  repeat (constructor; [vm_compute; discriminate|]). constructor.
Defined.

(** X22. A channel of two slash-separated pieces whose first piece does
    not begin with [Site] followed by a decimal digit ends the decoding
    with the [AttributeError] of the unchecked match, wherever it stands in
    the list. *)
Theorem channel_list_to_pins_bad_prefix (channel_list channel site pin : string) :
  channel ∈ re_split_commas channel_list ->
  re_split_slashes channel = [site; pin] ->
  match_site site = None ->
  _channel_list_to_pins channel_list = None.
Proof.
  intros Hin Hsplit Hsite. rewrite channel_list_to_pins_decode.
  assert (mapM decode_channel (re_split_commas channel_list) = None) as ->; [|done].
  apply mapM_None. apply Exists_exists. exists channel. split; [done|].
  unfold decode_channel. by rewrite Hsplit, Hsite.
Qed.

Lemma channel_list_to_pins_bad_prefix_witness :
  _channel_list_to_pins "Site0/A,Site-1/B" = None.
Proof.
  apply (channel_list_to_pins_bad_prefix "Site0/A,Site-1/B" "Site-1/B" "Site-1" "B").
  - let l := eval vm_compute in (re_split_commas "Site0/A,Site-1/B") in
    change (re_split_commas "Site0/A,Site-1/B") with l.
    apply elem_of_cons. right. apply elem_of_cons. by left.
  - reflexivity.
  - reflexivity.
Defined.

(** ** From addresses to channel lists and back *)

Section RoundTrip.

Lemma append_cons (c : ascii) (s t : string) :
  String c s +:+ t = String c (s +:+ t).
Proof. done. Qed.

(** *** The comma split of joined pieces *)

Lemma re_split_scan_separator (s piece rest : string) :
  match_separator s = Some rest ->
  re_split_scan s piece = String.rev piece :: re_split_scan rest "".
Proof.
  funelim (re_split_scan s piece); intros Hm; [congruence|discriminate Hm|congruence].
Qed.

Lemma re_split_scan_char (c : ascii) (s piece : string) :
  match_separator (String c s) = None ->
  re_split_scan (String c s) piece = re_split_scan s (String c piece).
Proof.
  remember (String c s) as t eqn:Ht. revert c s Ht.
  funelim (re_split_scan t piece); intros c0 s0 Ht Hm; [congruence|done|].
  by injection Ht as <- <-.
Qed.

Lemma piece_char_no_separator (c : ascii) (s : string) :
  piece_char c = true -> match_separator (String c s) = None.
Proof.
  unfold piece_char, match_separator. intros Hc.
  apply andb_prop in Hc as [Hs Hc]. apply negb_true_iff in Hs, Hc.
  simpl. by rewrite Hs, Hc.
Qed.

Lemma piece_char_skip_spaces (c : ascii) (s : string) :
  is_space c = false -> skip_spaces (String c s) = String c s.
Proof. intros Hc. simpl. by rewrite Hc. Qed.

(** A piece without white space or comma, then a comma: the piece is cut
    off there. *)
Lemma re_split_scan_piece_comma (x t piece : string) :
  string_forall piece_char x = true ->
  re_split_scan (x +:+ String "," t) piece
  = (String.rev piece +:+ x) :: re_split_scan (skip_spaces t) "".
Proof.
  revert piece. induction x as [|c x IH]; intros piece Hx.
  - change ("" +:+ String "," t) with (String "," t).
    rewrite (re_split_scan_separator _ _ (skip_spaces t)) by done.
    by rewrite append_empty_r.
  - simpl in Hx. apply andb_prop in Hx as [Hc Hx].
    rewrite append_cons, re_split_scan_char by (by apply piece_char_no_separator).
    rewrite IH by done. by rewrite rev_push.
Qed.

Lemma piece_count_commas (x : string) :
  string_forall piece_char x = true -> count_commas x = 0%nat.
Proof.
  induction x as [|c x IH]; [done|]. simpl. intros Hx.
  apply andb_prop in Hx as [Hc Hx]. unfold piece_char in Hc.
  apply andb_prop in Hc as [_ Hc]. apply negb_true_iff in Hc.
  rewrite Hc. by apply IH.
Qed.

Lemma join_pieces_no_leading_space (l : list string) :
  Forall (fun x => string_forall piece_char x = true) l ->
  skip_spaces (join "," l) = join "," l.
Proof.
  intros Hl. destruct Hl as [|x l Hx Hl]; [done|].
  assert (forall t, (x = "" -> skip_spaces t = t) ->
                    skip_spaces (x +:+ t) = x +:+ t) as Hhead.
  { intros t Ht. destruct x as [|c x]; [by apply Ht|].
    rewrite append_cons. apply piece_char_skip_spaces.
    simpl in Hx. apply andb_prop in Hx as [Hc _]. unfold piece_char in Hc.
    apply andb_prop in Hc as [Hc _]. by apply negb_true_iff in Hc. }
  destruct l as [|y l].
  - change (join "," [x]) with x. rewrite <- (append_empty_r x). by apply Hhead.
  - rewrite join_cons by done. by apply Hhead.
Qed.

(** Joining pieces without white space or comma and splitting the result
    gives the pieces back. *)
Lemma re_split_commas_join (l : list string) :
  l <> [] ->
  Forall (fun x => string_forall piece_char x = true) l ->
  re_split_commas (join "," l) = l.
Proof.
  intros Hne Hl. induction Hl as [|x l Hx Hl IH]; [done|].
  destruct l as [|y l].
  - change (join "," [x]) with x.
    by apply re_split_commas_comma_free, piece_count_commas.
  - rewrite join_cons by done. unfold re_split_commas.
    change (x +:+ "," +:+ join "," (y :: l))
      with (x +:+ String "," (join "," (y :: l))).
    rewrite re_split_scan_piece_comma by done.
    rewrite join_pieces_no_leading_space by done.
    f_equal. by apply IH.
Qed.

(** *** The slash split of an address *)

Lemma re_split_slash_scan_free (s piece : string) :
  string_forall (fun c => negb (is_slash c)) s = true ->
  re_split_slash_scan s piece = [String.rev piece +:+ s].
Proof.
  revert piece. induction s as [|c s IH]; intros piece Hs; simpl.
  - by rewrite append_empty_r.
  - simpl in Hs. apply andb_prop in Hs as [Hc Hs]. apply negb_true_iff in Hc.
    rewrite Hc, IH by done. by rewrite rev_push.
Qed.

Lemma re_split_slash_scan_prefix (x pin piece : string) :
  string_forall (fun c => negb (is_slash c)) x = true ->
  string_forall (fun c => negb (is_slash c)) pin = true ->
  re_split_slash_scan (x +:+ String "/" pin) piece = [String.rev piece +:+ x; pin].
Proof.
  revert piece. induction x as [|c x IH]; intros piece Hx Hpin.
  - change ("" +:+ String "/" pin) with (String "/" pin). simpl.
    by rewrite append_empty_r, re_split_slash_scan_free.
  - simpl in Hx. apply andb_prop in Hx as [Hc Hx]. apply negb_true_iff in Hc.
    rewrite append_cons. simpl. rewrite Hc, IH by done. by rewrite rev_push.
Qed.

Lemma name_no_slash (s : string) :
  string_forall name_char s = true ->
  string_forall (fun c => negb (is_slash c)) s = true.
Proof.
  induction s as [|c s IH]; [done|]. simpl. intros Hs.
  apply andb_prop in Hs as [Hc Hs]. unfold name_char in Hc.
  apply andb_prop in Hc as [_ Hc]. by rewrite Hc, IH.
Qed.

Lemma name_piece (s : string) :
  string_forall name_char s = true -> string_forall piece_char s = true.
Proof.
  induction s as [|c s IH]; [done|]. simpl. intros Hs.
  apply andb_prop in Hs as [Hc Hs]. unfold name_char in Hc.
  apply andb_prop in Hc as [Hc _]. by rewrite Hc, IH.
Qed.

Lemma string_forall_app (P : ascii -> bool) (s t : string) :
  string_forall P (s +:+ t) = string_forall P s && string_forall P t.
Proof.
  induction s as [|c s IH]; [done|]. rewrite append_cons. simpl.
  by rewrite IH, andb_assoc.
Qed.

(** *** The decimal text of a site number *)

Lemma uint_text_digits (d : Decimal.uint) :
  string_forall (fun c => is_digit c && name_char c)
    (NilEmpty.string_of_uint d) = true.
Proof. induction d; simpl; by rewrite ?IHd. Qed.

Lemma str_digits (n : Z) :
  0 <= n -> string_forall (fun c => is_digit c && name_char c) (str n) = true.
Proof.
  intros Hn. unfold str. destruct n as [|p|p]; [done| |lia].
  simpl. unfold NilZero.string_of_uint.
  pose proof (uint_text_digits (Pos.to_uint p)) as Hd.
  by destruct (Pos.to_uint p).
Qed.

Lemma str_nonempty (n : Z) : str n <> "".
Proof.
  unfold str. destruct n as [|p|p]; simpl; try done.
  unfold NilZero.string_of_uint. by destruct (Pos.to_uint p).
Qed.

Lemma string_forall_impl (P Q : ascii -> bool) (s : string) :
  (forall c, P c = true -> Q c = true) ->
  string_forall P s = true -> string_forall Q s = true.
Proof.
  intros HPQ. induction s as [|c s IH]; [done|]. simpl. intros Hs.
  apply andb_prop in Hs as [Hc Hs]. by rewrite (HPQ c Hc), IH.
Qed.

Lemma take_digits_all (s : string) :
  string_forall is_digit s = true -> take_digits s = s.
Proof.
  induction s as [|c s IH]; [done|]. simpl. intros Hs.
  apply andb_prop in Hs as [Hc Hs]. by rewrite Hc, IH.
Qed.

Lemma int_digits_acc (d : Decimal.uint) (acc : positive) :
  int_digits (NilEmpty.string_of_uint d) (Z.pos acc)
  = Z.pos (Pos.of_uint_acc d acc).
Proof.
  revert acc. induction d; intros acc; simpl; [done|..];
    match goal with
    | |- context [Z.of_nat (nat_of_ascii ?c)] =>
        let v := eval vm_compute in (Z.of_nat (nat_of_ascii c)) in
        change (Z.of_nat (nat_of_ascii c)) with v
    end;
    rewrite <- IHd; f_equal; lia.
Qed.

Lemma int_digits_uint (d : Decimal.uint) :
  int_digits (NilEmpty.string_of_uint d) 0 = Z.of_N (Pos.of_uint d).
Proof.
  induction d; simpl; [done|..];
    match goal with
    | |- int_digits _ ?a = _ =>
        let v := eval vm_compute in a in change a with v
    end;
    [exact IHd|apply int_digits_acc..].
Qed.

Lemma int_str (n : Z) : 0 <= n -> int (str n) = n.
Proof.
  intros Hn. rewrite <- (DecimalZ.of_to n) at 2. unfold int, str.
  destruct n as [|p|p]; [done| |lia]. simpl.
  unfold NilZero.string_of_uint, Z.of_uint.
  rewrite <- int_digits_uint. by destruct (Pos.to_uint p).
Qed.

(** *** One address *)

Lemma match_site_str (n : Z) : 0 <= n -> match_site ("Site" +:+ str n) = Some (str n).
Proof.
  intros Hn. change ("Site" +:+ str n)
    with (String "S" (String "i" (String "t" (String "e" (str n))))).
  simpl. rewrite take_digits_all.
  - pose proof (str_nonempty n). by destruct (str n).
  - eapply string_forall_impl; [|by apply str_digits].
    by intros c [Hc _]%andb_prop.
Qed.

Lemma decode_address (p : site_pin) :
  string_forall name_char (sp_pin p) = true ->
  sp_type p = System_Pin \/ 0 <= sp_site p ->
  decode_channel (address_of p) = Some (sp_pin p, reported_site p).
Proof.
  intros Hpin Hsite. unfold decode_channel, address_of, reported_site, channel_address.
  pose proof (name_no_slash _ Hpin) as Hfree.
  destruct (decide (sp_type p = System_Pin)) as [Hsys|Hsys].
  - rewrite Hsys. simpl. unfold re_split_slashes.
    by rewrite re_split_slash_scan_free.
  - destruct Hsite as [?|Hsite]; [done|].
    rewrite (bool_decide_eq_false_2 (sp_type p = System_Pin)) by done.
    rewrite (bool_decide_eq_false_2 (PinType_value (sp_type p) = 1))
      by (by destruct (sp_type p)).
    unfold re_split_slashes.
    change ("Site" +:+ str (sp_site p) +:+ "/" +:+ sp_pin p)
      with (("Site" +:+ str (sp_site p)) +:+ String "/" (sp_pin p)).
    rewrite re_split_slash_scan_prefix; [| |done].
    + change (String.rev "" +:+ ?s) with s.
      rewrite match_site_str by done. simpl. by rewrite int_str.
    + rewrite string_forall_app. apply andb_true_intro. split; [done|].
      eapply string_forall_impl; [|by apply str_digits].
      intros c [_ Hc]%andb_prop. unfold name_char in Hc.
      by apply andb_prop in Hc as [_ Hc].
Qed.

Lemma address_piece (p : site_pin) :
  string_forall name_char (sp_pin p) = true ->
  sp_type p = System_Pin \/ 0 <= sp_site p ->
  string_forall piece_char (address_of p) = true.
Proof.
  intros Hpin Hsite. unfold address_of, channel_address.
  pose proof (name_piece _ Hpin) as Hpiece.
  case_bool_decide as Hsys; [done|].
  destruct Hsite as [Hs|Hsite]; [by rewrite Hs in Hsys|].
  rewrite !string_forall_app. rewrite Hpiece.
  assert (string_forall piece_char (str (sp_site p)) = true) as ->; [|done].
  eapply string_forall_impl; [|by apply str_digits].
  intros c [_ Hc]%andb_prop. unfold name_char in Hc.
  by apply andb_prop in Hc as [Hc _].
Qed.

End RoundTrip.

(** X23. Decoding the channel list that the resolver writes gives the pins
    and the sites back.  For (site, pin) pairs, at least one, whose pin
    names hold no white space, comma, slash or backslash and whose site
    numbers are not negative: the comma-joined addresses decode to the
    addresses themselves as channels, the pin names as pins, and as sites
    the site numbers, [-1] standing for a system pin, whose address
    carries no site. *)
Theorem channel_list_round_trip (ps : list site_pin) :
  ps <> [] ->
  Forall (fun p => string_forall name_char (sp_pin p) = true
                   /\ (sp_type p = System_Pin \/ 0 <= sp_site p)) ps ->
  _channel_list_to_pins (join "," (address_of <$> ps))
  = Some (address_of <$> ps, sp_pin <$> ps, reported_site <$> ps).
Proof.
  intros Hne Hall. rewrite channel_list_to_pins_decode.
  rewrite re_split_commas_join.
  - assert (mapM decode_channel (address_of <$> ps)
            = Some ((fun p => (sp_pin p, reported_site p)) <$> ps)) as ->.
    { apply mapM_Some. clear Hne.
      induction Hall as [|p ps [Hpin Hsite] _ IH]; [constructor|].
      rewrite !fmap_cons. constructor; [by apply decode_address|exact IH]. }
    simpl. by rewrite <- !list_fmap_compose.
  - by destruct ps.
  - apply Forall_fmap. eapply Forall_impl; [exact Hall|].
    intros p [Hpin Hsite]. by apply address_piece.
Qed.

Lemma channel_list_round_trip_witness :
  _channel_list_to_pins "Site0/A,Clk,Site12/A"
  = Some (["Site0/A"; "Clk"; "Site12/A"], ["A"; "Clk"; "A"], [0; -1; 12]).
Proof.
  apply (channel_list_round_trip
    [ {| sp_site := 0; sp_group := 0; sp_index := 0; sp_pin := "A";
         sp_type := DUT_Pin |};
      {| sp_site := 0; sp_group := 1; sp_index := 0; sp_pin := "Clk";
         sp_type := System_Pin |};
      {| sp_site := 12; sp_group := 0; sp_index := 1; sp_pin := "A";
         sp_type := DUT_Pin |} ]).
  - discriminate.
  - repeat (constructor; [split; [reflexivity|]; first [by left|by right]|]).
    constructor.
Defined.

(** ** Trigger paths *)

Section TriggerPaths.

Lemma for_opt_append_const {A B : Type} (y : B) (l : list A) (acc : list B) :
  for_opt (fun acc _ => Some (acc ++ [y])) l acc = Some (acc ++ repeat y (length l)).
Proof.
  revert acc. induction l as [|x l IH]; intros acc; simpl.
  - by rewrite app_nil_r.
  - rewrite IH. by rewrite <- app_assoc.
Qed.

(** The path computed for one entry. *)
Lemma match_chassis_Some (descriptor chassis_string : string) :
  match_chassis descriptor = Some chassis_string ->
  exists c rest,
    descriptor = String "_" (String "C" (String c (String "_" rest)))
    /\ c ∈ ["1"; "2"; "3"; "4"]%char
    /\ chassis_string = String "_" (String "C" (String c (String "_" ""))).
Proof.
  unfold match_chassis. intros Hm.
  destruct descriptor as [|a descriptor]; [discriminate|].
  destruct a as [[] [] [] [] [] [] [] []]; try discriminate.
  destruct descriptor as [|b descriptor]; [discriminate|].
  destruct b as [[] [] [] [] [] [] [] []]; try discriminate.
  destruct descriptor as [|c descriptor]; [discriminate|].
  destruct descriptor as [|d rest]; [discriminate|].
  destruct d as [[] [] [] [] [] [] [] []]; try discriminate.
  exists c, rest. split; [done|].
  destruct c as [[] [] [] [] [] [] [] []]; try discriminate;
    injection Hm as <-; (split; [|done]);
    rewrite !elem_of_cons; repeat first [by left|right].
Qed.

Lemma stsm1_loop (l : list SSCScope) (acc : list string) :
  for_opt (fun trigger_paths scope_ssc =>
    chassis_string ←
      match_chassis (niscope.io_resource_descriptor (session scope_ssc));
    chassis ← String.get 2 chassis_string;
    Some (trigger_paths
          ++ ["/" +:+ ("SYNC_6674T_C" +:+ String chassis EmptyString +:+ "_S10")
              +:+ "/" +:+ "PFI0"])) l acc
  = ps ← mapM (fun scope_ssc =>
          chassis_string ←
            match_chassis (niscope.io_resource_descriptor (session scope_ssc));
          chassis ← String.get 2 chassis_string;
          Some (chassis_trigger_path chassis)) l;
    Some (acc ++ ps).
Proof.
  revert acc. induction l as [|e l IH]; intros acc.
  - simpl. by rewrite app_nil_r.
  - change (for_opt ?f (e :: l) acc) with (f acc e ≫= for_opt f l).
    change (mapM ?f (e :: l)) with (r ← f e; k ← mapM f l; Some (r :: k)).
    cbv beta.
    destruct (match_chassis (niscope.io_resource_descriptor (session e)))
      as [chassis_string|]; simpl; [|done].
    destruct (String.get 2 chassis_string) as [chassis|]; simpl; [|done].
    rewrite IH. destruct (mapM _ l) as [ps|]; simpl; [|done].
    by rewrite <- app_assoc.
Qed.

End TriggerPaths.

(** X24. For every setup type other than the exact text [STSM1], the
    trigger paths are the given trigger source, once per entry of the
    aggregate; the sessions are not looked at and nothing is raised. *)
Theorem obtain_trigger_path_other_setup (tsm : TSMScope)
  (trigger_source setup_type : string) :
  setup_type <> "STSM1" ->
  _ssc_scope_obtain_trigger_path tsm trigger_source setup_type
  = Some (repeat trigger_source (length (ssc tsm))).
Proof.
  intros Hne. unfold _ssc_scope_obtain_trigger_path.
  apply String.eqb_neq in Hne. rewrite Hne.
  apply (for_opt_append_const trigger_source (ssc tsm) []).
Qed.

Lemma obtain_trigger_path_other_setup_witness :
  _ssc_scope_obtain_trigger_path
    (scenario_aggregate [scenario_entry 0; scenario_entry 1]) "PXI_Trig0" "stsm1"
  = Some ["PXI_Trig0"; "PXI_Trig0"].
Proof.
  apply (obtain_trigger_path_other_setup
    (scenario_aggregate [scenario_entry 0; scenario_entry 1]) "PXI_Trig0" "stsm1").
  discriminate.
Defined.

(** X25. For the setup type [STSM1] the trigger source is not used.  The
    function returns exactly when the resource descriptor of every entry's
    session begins with [_C], a chassis digit from 1 to 4, and [_]; the
    path of an entry is then [/SYNC_6674T_C], the chassis digit and
    [_S10/PFI0], one path per entry in aggregate order.  A descriptor that
    begins otherwise ends it with the [AttributeError] of the unchecked
    match. *)
Theorem obtain_trigger_path_stsm1 (tsm : TSMScope) (trigger_source : string)
  (trigger_paths : list string) :
  _ssc_scope_obtain_trigger_path tsm trigger_source "STSM1" = Some trigger_paths
  <-> Forall2
        (fun scope_ssc trigger_path =>
           exists c rest,
             niscope.io_resource_descriptor (session scope_ssc)
             = String "_" (String "C" (String c (String "_" rest)))
             /\ c ∈ ["1"; "2"; "3"; "4"]%char
             /\ trigger_path = chassis_trigger_path c)
        (ssc tsm) trigger_paths.
Proof.
  unfold _ssc_scope_obtain_trigger_path.
  change (String.eqb "STSM1" "STSM1") with true. cbv iota.
  rewrite stsm1_loop.
  destruct (mapM _ (ssc tsm)) as [ps|] eqn:Hps; simpl.
  - apply mapM_Some in Hps. split.
    + intros [= <-]. eapply Forall2_impl; [exact Hps|].
      intros e path Hpath. simpl in Hpath.
      destruct (match_chassis _) as [chassis_string|] eqn:Hm; [|done].
      apply match_chassis_Some in Hm as (c & rest & Hd & Hc & ->).
      simpl in Hpath. injection Hpath as <-. by exists c, rest.
    + intros Hall. f_equal. revert Hps Hall. generalize (ssc tsm).
      intros l Hps. revert trigger_paths.
      induction Hps as [|e p l ps He _ IH]; intros paths Hall.
      * by inversion Hall.
      * inversion Hall as [|e' path l' paths' (c & rest & Hd & Hc & ->) Hrest];
          subst.
        rewrite Hd in He.
        assert (p = chassis_trigger_path c) as ->.
        { rewrite !elem_of_cons in Hc.
          destruct Hc as [->|[->|[->|[->|Hc]]]];
            [by injection He..|by apply elem_of_nil in Hc]. }
        f_equal. by apply IH.
  - split; [done|]. intros Hall. apply mapM_None in Hps.
    apply Exists_exists in Hps as (e & Hin & He).
    apply list_elem_of_lookup in Hin as [i Hi].
    destruct (Forall2_lookup_l _ _ _ _ _ Hall Hi)
      as (path & _ & c & rest & Hd & Hc & _).
    rewrite Hd in He. rewrite !elem_of_cons in Hc.
    destruct Hc as [->|[->|[->|[->|Hc]]]];
      [discriminate He..|by apply elem_of_nil in Hc].
Qed.

(** ** Statistics measurement, the result *)

Section StatisticsResult.

Context `{NiScope}.

Lemma measure_statistics_counted (tsm : TSMScope) (f : niscope.ScalarMeasurement) :
  issues (scope_measure_statistics tsm f)
    (expected_statistics_calls f (ssc tsm))
    (fun r => r.1 = tsm /\ length r.2 = length (ssc tsm)).
Proof.
  unfold scope_measure_statistics, expected_statistics_calls.
  rewrite <- (app_nil_r (_ ≫= _)).
  eapply issues_bind.
  - apply (issues_for_fold_counted (measure_step f) _
             (fun k stats => length stats = k) (ssc tsm) [] 0%nat); [|done].
    intros k stats x Hk. unfold measure_step.
    eapply (issues_bind _ _ [_] [_; _]); [apply issues_invoke|]. intros _ _.
    eapply (issues_bind _ _ [_] [_]); [apply issues_invoke|]. intros _ _.
    rewrite <- (app_nil_r [_]).
    eapply issues_bind; [apply issues_invoke_fetch|]. intros stat _.
    apply issues_ret. rewrite length_app. simpl. lia.
  - intros stats Hlen. by apply issues_ret.
Qed.

End StatisticsResult.

(** X26. Whatever the driver does, when the statistics measurement returns
    it returns the aggregate it was given and one statistics item per
    entry, and it has issued the clear, the initiate and the fetch of
    every entry. *)
Theorem measure_statistics_one_item_per_entry `{NiScope} (tsm : TSMScope)
  (f : niscope.ScalarMeasurement) (log log' : list event)
  (r : TSMScope * list (list MeasurementStats)) :
  scope_measure_statistics tsm f log = (Ok r, log') ->
  r.1 = tsm
  /\ length r.2 = length (ssc tsm)
  /\ log' = log ++ expected_statistics_calls f (ssc tsm).
Proof.
  intros Hrun.
  destruct (measure_statistics_counted tsm f log) as (cs' & E & _ & O & _).
  rewrite Hrun in E, O. simpl in E, O.
  destruct (O r eq_refl) as [-> [Hr Hlen]]. done.
Qed.

Lemma measure_statistics_one_item_per_entry_witness :
  exists r log',
    @scope_measure_statistics quiet_driver
      (scenario_aggregate [scenario_entry 0; scenario_entry 1]) 5 [] = (Ok r, log')
    /\ length r.2 = 2%nat
    /\ length log' = 6%nat.
Proof.
  eexists. eexists. split; [reflexivity|].
  destruct (@measure_statistics_one_item_per_entry quiet_driver
    (scenario_aggregate [scenario_entry 0; scenario_entry 1]) 5 [] _ _ eq_refl)
    as (_ & Hlen & Hlog).
  split; [exact Hlen|]. reflexivity.
Defined.
